(** * ThinStack: a batched shift-reduce stack on flat device arrays

    A shallow embedding of the methods of the [ThinStack] class
    (declared in [thin-stack.h]): [zero], [step], [recurrence],
    [mask_and_update_stack], [mask_and_update_cursors],
    [update_buffer_cur] and [forward], in the version whose [step] calls
    [mask_and_update_stack(buffer_top_t, merge_output, transitions_t, t)].
    The device arrays are kept flat, as the program has them, and every
    method is a function from the arrays it reads to the arrays it
    writes.

    Every array of the program is a [float*].  The cells that matter for
    the index arithmetic (cursors, queue, transitions, batch_range) hold
    integer-valued floats, and the statements below about data cells use
    integer-valued data as well, so a cell is modelled as a [Z]: rounding
    is outside this development. *)

From stdpp Require Import base list list_numbers gmap.
From Stdlib Require Import ZArith Lia.

Local Open Scope Z_scope.

(** ** Flat arrays *)

(** [elt a k] is the C expression [a[k]] for an index inside the array. *)
Definition elt (a : list Z) (k : Z) : Z := a !!! Z.to_nat k.

(** [tab n f] is the array of [n] cells whose cell [k] is [f k]: one
    cell per thread index, as a kernel launch fills its destination. *)
Definition tab (n : Z) (f : Z → Z) : list Z := f <$> seqZ 0 n.

Definition len (a : list Z) : Z := Z.of_nat (length a).

(** [zeros n] is what [cudaMemset(p, 0, n * sizeof(float))] leaves in
    [n] cells. *)
Definition zeros (n : Z) : list Z := tab n (λ _, 0).

(** [&a[k]]: the array seen from cell [k] on. *)
Definition offset_ptr (a : list Z) (k : Z) : list Z := drop (Z.to_nat k) a.

(** A store through a computed index.  A store that lands outside the
    array does not change the array (what it does to the rest of the
    device memory is not modelled). *)
Definition poke (a : list Z) (k v : Z) : list Z :=
  if 0 <=? k then <[Z.to_nat k := v]> a else a.

(** [cudaMemset(a, 0, n * sizeof(float))]. *)
Definition memset0 (a : list Z) (n : Z) : list Z :=
  tab (len a) (λ k, if k <? n then 0 else elt a k).

Fixpoint sum_upto (n : nat) (f : Z → Z) : Z :=
  match n with
  | O => 0
  | S m => sum_upto m f + f (Z.of_nat m)
  end.

(** ** cuBLAS *)

(** [cublasSaxpy(handle, n, &alpha, x, 1, y, 1)]: [y += alpha * x] on
    the first [n] cells. *)
Definition cublasSaxpy (n alpha : Z) (x y : list Z) : list Z :=
  tab (len y) (λ i, if i <? n then alpha * elt x i + elt y i else elt y i).

(** [cublasSgemm(handle, N, N, m, n, k, &alpha, A, lda, B, ldb, &beta, C, ldc)]
    on column-major matrices: [C := alpha * A * B + beta * C]. *)
Definition cublasSgemm (m n k alpha : Z) (A : list Z) (lda : Z)
    (Bm : list Z) (ldb beta : Z) (C : list Z) (ldc : Z) : list Z :=
  tab (len C) (λ p,
    let i := p `mod` ldc in
    let j := p `div` ldc in
    if (i <? m) && (j <? n)
    then alpha * sum_upto (Z.to_nat k) (λ l, elt A (i + l * lda) * elt Bm (l + j * ldb))
         + beta * elt C p
    else elt C p).

(** ** Configuration, parameters and the object's arrays *)

(** Modelled from the spec: [util.h], which declares [ModelSpec], is not
    among the sources.  The three dimensions the stack uses are kept:
    batch size B, model dimension D and sequence length T. *)
Record ModelSpec := {
  batch_size : Z;
  model_dim : Z;
  seq_length : Z
}.

(** [ThinStackParameters] of [thin-stack.h]; a NULL pointer is the empty
    array. *)
Record ThinStackParameters := {
  project_W : list Z;
  project_b : list Z;
  buffer_bn_ts : list Z;
  buffer_bn_tm : list Z;
  tracking_W_inp : list Z;
  tracking_W_hid : list Z;
  tracking_b : list Z;
  compose_W_l : list Z;
  compose_W_r : list Z;
  compose_W_ext : list Z;
  compose_b : list Z
}.

(** The device arrays of a [ThinStack] object: the two inputs, the
    auxiliary structures, the "containers for temporary (per-step) data"
    and the per-step accumulator [buffer_cur_t]. *)
Record ThinStack := {
  X : list Z;
  transitions : list Z;
  stack : list Z;
  queue : list Z;
  cursors : list Z;
  buffer : list Z;
  buffer_top_t : list Z;
  stack_1_t : list Z;
  stack_2_ptrs : list Z;
  stack_2_t : list Z;
  push_output : list Z;
  merge_output : list Z;
  buffer_cur_t : list Z
}.

(** The arrays a gather kernel can be asked to read from. *)
Inductive region := Rbuffer | Rqueue | Rstack.

Section Device.

(** What a load outside an array's extent yields.  The program never
    checks an offset, so such a load is not an error of the model; its
    value is left arbitrary and every statement holds for all of them. *)
Variable stray : region → Z → Z.

Variable spec : ModelSpec.
Variable params : ThinStackParameters.

(** A load through a computed index. *)
Definition peek (rg : region) (a : list Z) (k : Z) : Z :=
  if (0 <=? k) && (k <? len a) then elt a k else stray rg k.

(** [init_helpers]: [batch_ones[i] = 1], [batch_range[i] = i]. *)
Definition batch_ones : list Z := tab (batch_size spec) (λ _, 1).
Definition batch_range : list Z := tab (batch_size spec) (λ i, i).

(** ** Kernels *)

(** Modelled from the spec: [kernels.cuh] is not among the sources.
    The index a gather or scatter computes for example [i], as the
    comments at the calls in [step] give it:
    [idxs[i] * mul + shift + coeff * vec[i]], the last term absent when
    [vec] is NULL. *)
Definition kernel_idx (idxs : list Z) (shift mul coeff : Z)
    (vec : option (list Z)) (i : Z) : Z :=
  elt idxs i * mul + shift
  + match vec with Some v => coeff * elt v i | None => 0 end.

(** Modelled from the spec: [kernels.cuh] is not among the sources.
    [subtensor1(dst, src, idxs, src_N, N, D, shift, mul, coeff, vec)]
    gathers, for each of [N] examples, the row of width [D] of [src] at
    the computed index into row [i] of [dst]: cell [i * D + j] of [dst]
    receives cell [index i * D + j] of [src].  A store past the end of
    [dst] is dropped, as in [poke].  [src_N], the number of rows the
    caller declares for [src], is carried as the calls pass it; the
    gather loads the row at the computed offset whatever [src_N] says,
    the extent that decides what a load returns being the array's own. *)
Definition subtensor1 (rg : region) (dst src idxs : list Z) (src_N N D : Z)
    (shift mul coeff : Z) (vec : option (list Z)) : list Z :=
  tab (len dst) (λ p,
    if p <? N * D
    then peek rg src
           (kernel_idx idxs shift mul coeff vec (p `div` D) * D + p `mod` D)
    else elt dst p).

(** Modelled from the spec: [kernels.cuh] is not among the sources.
    [addi_vv(handle, v1, v2, c1, c2, N)]: [v1 = v1 * c1 + v2 * c2]. *)
Definition addi_vv (v1 v2 : list Z) (c1 c2 N : Z) : list Z :=
  tab (len v1) (λ i, if i <? N then elt v1 i * c1 + elt v2 i * c2 else elt v1 i).

(** Modelled from the spec: [kernels.cuh] is not among the sources.
    [set_subtensor1i_s(dst, v, idxs, N, shift, coeff, vec)]:
    [dst[idxs[i] + shift + coeff * vec[i]] = v] for each example. *)
Definition set_subtensor1i_s (dst : list Z) (v : Z) (idxs : list Z)
    (N shift coeff : Z) (vec : list Z) : list Z :=
  foldl (λ q i, poke q (kernel_idx idxs shift 1 coeff (Some vec) i) v)
        dst (seqZ 0 N).

(** Modelled from the spec: [kernels.cuh] is not among the sources.
    [switch_m(&dst[off], mask, ift, iff, N, D)]: row [i] of the [N] rows
    of width [D] written at [off] is row [i] of [ift] where [mask[i]] is
    1 and row [i] of [iff] otherwise. *)
Definition switch_m (dst : list Z) (off : Z) (mask ift iff : list Z)
    (N D : Z) : list Z :=
  tab (len dst) (λ p,
    if (off <=? p) && (p <? off + N * D)
    then if elt mask ((p - off) `div` D) =? 1
         then elt ift (p - off) else elt iff (p - off)
    else elt dst p).

(** ** The methods of [ThinStack] *)

(** [ThinStack::zero]. *)
Definition zero (s : ThinStack) : ThinStack :=
  let stack_total_size := (seq_length spec * batch_size spec) * model_dim spec in
  let queue_total_size := batch_size spec * seq_length spec in
  let cursors_total_size := batch_size spec in
  {| X := X s; transitions := transitions s;
     stack := memset0 (stack s) stack_total_size;
     queue := memset0 (queue s) queue_total_size;
     cursors := memset0 (cursors s) cursors_total_size;
     buffer := buffer s;
     buffer_top_t := buffer_top_t s;
     stack_1_t := stack_1_t s;
     stack_2_ptrs := stack_2_ptrs s;
     stack_2_t := stack_2_t s;
     push_output := push_output s;
     merge_output := merge_output s;
     buffer_cur_t := memset0 (buffer_cur_t s) (batch_size spec) |}.

(** [ThinStack::recurrence]: the new contents of [merge_output]. *)
Definition recurrence (merge_out stack_1 stack_2 buffer_top : list Z) : list Z :=
  let alpha := 1 in
  let beta := 0 in
  let merge_out :=
    cublasSgemm (model_dim spec) (batch_size spec) (model_dim spec) alpha
      (compose_W_l params) (model_dim spec) stack_2 (model_dim spec)
      beta merge_out (model_dim spec) in
  let beta2 := 1 in
  cublasSgemm (model_dim spec) (batch_size spec) (model_dim spec) alpha
    (compose_W_r params) (model_dim spec) stack_1 (model_dim spec)
    beta2 merge_out (model_dim spec).

(** [ThinStack::mask_and_update_stack]: the new contents of [stack]. *)
Definition mask_and_update_stack (stk push_value merge_value trans : list Z)
    (t : Z) : list Z :=
  let stack_offset := t * batch_size spec * model_dim spec in
  switch_m stk stack_offset trans merge_value push_value
    (batch_size spec) (model_dim spec).

(** [ThinStack::mask_and_update_cursors]. *)
Definition mask_and_update_cursors (curs trans : list Z) (t : Z) : list Z :=
  let alpha1 := 1 in
  let curs := cublasSaxpy (batch_size spec) alpha1 batch_ones curs in
  let alpha2 := -2 in
  cublasSaxpy (batch_size spec) alpha2 trans curs.

(** [ThinStack::update_buffer_cur]. *)
Definition update_buffer_cur (bcur trans : list Z) (t : Z) : list Z :=
  let alpha1 := 1 in
  let bcur := cublasSaxpy (batch_size spec) alpha1 batch_ones bcur in
  let alpha2 := -1 in
  cublasSaxpy (batch_size spec) alpha2 trans bcur.

(** The row index [step] hands to the right-child gather for example
    [i]: [batch_range[i] + (t - 1) * batch_size]. *)
Definition stack_1_idx (t i : Z) : Z :=
  kernel_idx batch_range ((t - 1) * batch_size spec) 1 0 None i.

(** The row index [step] hands to the queue gather for example [i]:
    [(cursors[i] - 1) + batch_range[i] * seq_length]. *)
Definition queue_read_idx (curs : list Z) (i : Z) : Z :=
  kernel_idx curs (-1) 1 (seq_length spec) (Some batch_range) i.

(** The queue index [step] writes for example [i]:
    [cursors[i] + 0 + batch_range[i] * seq_length]. *)
Definition queue_write_idx (curs : list Z) (i : Z) : Z :=
  kernel_idx curs 0 1 (seq_length spec) (Some batch_range) i.

(** [ThinStack::step]. *)
Definition step (s : ThinStack) (t : Z) : ThinStack :=
  let transitions_t := offset_ptr (transitions s) (t * batch_size spec) in
  let buffer_top_t' :=
    subtensor1 Rbuffer (buffer_top_t s) (buffer s) (buffer_cur_t s)
      (batch_size spec * model_dim spec) (batch_size spec)
      (model_dim spec) 0 (batch_size spec) 1 (Some batch_range) in
  let stack_2_ptrs1 :=
    subtensor1 Rqueue (stack_2_ptrs s) (queue s) (cursors s) (batch_size spec)
      (batch_size spec) (seq_length spec) (-1) 1 (seq_length spec)
      (Some batch_range) in
  let stack_2_ptrs' :=
    addi_vv stack_2_ptrs1 batch_range (batch_size spec) 1 (batch_size spec) in
  let stack_1_t' :=
    subtensor1 Rstack (stack_1_t s) (stack s) batch_range
      (batch_size spec * seq_length spec) (batch_size spec)
      (model_dim spec) ((t - 1) * batch_size spec) 1 0 None in
  let stack_2_t' :=
    subtensor1 Rstack (stack_2_t s) (stack s) stack_2_ptrs'
      (batch_size spec * seq_length spec) (batch_size spec)
      (model_dim spec) 0 1 0 None in
  let merge_output' :=
    recurrence (merge_output s) stack_1_t' stack_2_t' buffer_top_t' in
  let stack' :=
    mask_and_update_stack (stack s) buffer_top_t' merge_output' transitions_t t in
  let cursors' := mask_and_update_cursors (cursors s) transitions_t t in
  let queue' :=
    set_subtensor1i_s (queue s) t cursors' (batch_size spec) 0
      (seq_length spec) batch_range in
  let buffer_cur_t' := update_buffer_cur (buffer_cur_t s) transitions_t t in
  {| X := X s; transitions := transitions s;
     stack := stack';
     queue := queue';
     cursors := cursors';
     buffer := buffer s;
     buffer_top_t := buffer_top_t';
     stack_1_t := stack_1_t';
     stack_2_ptrs := stack_2_ptrs';
     stack_2_t := stack_2_t';
     push_output := push_output s;
     merge_output := merge_output';
     buffer_cur_t := buffer_cur_t' |}.

(** The loop of [forward]: the state after timesteps [0 .. n-1]. *)
Fixpoint steps (n : nat) (s : ThinStack) : ThinStack :=
  match n with
  | O => s
  | S m => step (steps m s) (Z.of_nat m)
  end.

(** [buffer = X], the first statement of [forward]. *)
Definition bind_buffer (s : ThinStack) : ThinStack :=
  {| X := X s; transitions := transitions s;
     stack := stack s; queue := queue s; cursors := cursors s;
     buffer := X s;
     buffer_top_t := buffer_top_t s; stack_1_t := stack_1_t s;
     stack_2_ptrs := stack_2_ptrs s; stack_2_t := stack_2_t s;
     push_output := push_output s; merge_output := merge_output s;
     buffer_cur_t := buffer_cur_t s |}.

(** [ThinStack::forward]. *)
Definition forward (s : ThinStack) : ThinStack :=
  steps (Z.to_nat (seq_length spec)) (zero (bind_buffer s)).

(** What the constructor establishes: every array has the size it was
    allocated with (its contents are whatever [cudaMalloc] returned),
    and the caller has filled [X] and [transitions]. *)
Record allocated (s : ThinStack) : Prop := {
  alloc_X : len (X s) = batch_size spec * seq_length spec * model_dim spec;
  alloc_transitions : len (transitions s) = batch_size spec * seq_length spec;
  alloc_stack : len (stack s) = (seq_length spec * batch_size spec) * model_dim spec;
  alloc_queue : len (queue s) = batch_size spec * seq_length spec;
  alloc_cursors : len (cursors s) = batch_size spec;
  alloc_buffer_top_t : len (buffer_top_t s) = batch_size spec * model_dim spec;
  alloc_stack_1_t : len (stack_1_t s) = model_dim spec * batch_size spec;
  alloc_stack_2_ptrs : len (stack_2_ptrs s) = batch_size spec;
  alloc_stack_2_t : len (stack_2_t s) = model_dim spec * batch_size spec;
  alloc_push_output : len (push_output s) = batch_size spec * model_dim spec;
  alloc_merge_output : len (merge_output s) = batch_size spec * model_dim spec;
  alloc_buffer_cur_t : len (buffer_cur_t s) = batch_size spec
}.

(** A valid configuration: the three dimensions are positive. *)
Definition valid_spec : Prop :=
  0 < batch_size spec ∧ 0 < model_dim spec ∧ 0 < seq_length spec.

End Device.


(** ** Reading the arrays by example and timestep *)

Section Views.

Variable spec : ModelSpec.
Variable params : ThinStackParameters.

(** Row [r] of a matrix of rows of width [model_dim]. *)
Definition row (a : list Z) (r : Z) : list Z :=
  tab (model_dim spec) (λ j, elt a (r * model_dim spec + j)).

(** Cell [p] lies in the block of [batch_size * model_dim] cells that
    timestep [t] owns in the stack. *)
Definition in_row (t p : Z) : Prop :=
  t * batch_size spec * model_dim spec ≤ p
  < t * batch_size spec * model_dim spec + batch_size spec * model_dim spec.

(** [Transitions[i, t]]: [step] reads [transitions[t * batch_size + i]]. *)
Definition tr_at (trs : list Z) (i t : Z) : Z := elt trs (t * batch_size spec + i).

(** The transitions hold labels only: 0 for shift, 1 for reduce. *)
Definition binary (trs : list Z) : Prop :=
  ∀ i t, 0 ≤ i < batch_size spec → 0 ≤ t < seq_length spec →
    tr_at trs i t = 0 ∨ tr_at trs i t = 1.

(** Number of shifts (label 0) and of reduces (label 1) of example [i]
    among timesteps [0 .. n-1]. *)
Fixpoint count_label (lbl : Z) (trs : list Z) (i : Z) (n : nat) : Z :=
  match n with
  | O => 0
  | S m => count_label lbl trs i m
           + (if tr_at trs i (Z.of_nat m) =? lbl then 1 else 0)
  end.

Definition shifts := count_label 0.
Definition reduces := count_label 1.

(** Coordinate [i] of the product of the column-major
    [model_dim * model_dim] matrix [W] with the vector [v]. *)
Definition matvec (W : list Z) (v : Z → Z) (i : Z) : Z :=
  sum_upto (Z.to_nat (model_dim spec))
    (λ l, elt W (i + l * model_dim spec) * v l).

(** What [recurrence] computes for one example from its left child [l]
    and right child [r]. *)
Definition compose (l r : list Z) : list Z :=
  tab (model_dim spec) (λ j,
    matvec (compose_W_l params) (elt l) j + matvec (compose_W_r params) (elt r) j).

(** The Composition Unit as the specification words it: both products,
    the bias broadcast over the batch, then the rectification. *)
Definition composition_spec (L R : list Z) : list Z :=
  tab (model_dim spec * batch_size spec) (λ p,
    let i := p `mod` model_dim spec in
    let j := p `div` model_dim spec in
    Z.max 0
      (matvec (compose_W_l params) (λ l, elt L (l + j * model_dim spec)) i
       + matvec (compose_W_r params) (λ l, elt R (l + j * model_dim spec)) i
       + elt (compose_b params) i)).

(** ** The reference: one software stack per example

    An entry is the timestep that pushed it together with its vector;
    the head of the list is the top.  The state also carries the number
    of buffer tokens consumed.  A reduce on fewer than two entries has no
    result. *)
Definition ref_entry : Type := Z * list Z.
Definition ref_state : Type := list ref_entry * Z.

Definition ref_step (buf : list Z) (i t tr : Z) (st : ref_state) : option ref_state :=
  let '(stk, c) := st in
  if tr =? 0
  then Some ((t, row buf (c * batch_size spec + i)) :: stk, c + 1)
  else match stk with
       | r :: l :: rest => Some ((t, compose l.2 r.2) :: rest, c)
       | _ => None
       end.

(** The reference after timesteps [0 .. n-1] of example [i]. *)
Fixpoint ref_run (buf trs : list Z) (i : Z) (n : nat) : option ref_state :=
  match n with
  | O => Some ([], 0)
  | S m =>
      match ref_run buf trs i m with
      | Some st => ref_step buf i (Z.of_nat m) (tr_at trs i (Z.of_nat m)) st
      | None => None
      end
  end.

(** Well-formed transitions: labels only, and for every example the
    reference stack can run the whole sequence. *)
Definition well_formed (buf trs : list Z) : Prop :=
  binary trs ∧
  ∀ i, 0 ≤ i < batch_size spec →
    is_Some (ref_run buf trs i (Z.to_nat (seq_length spec))).

End Views.

(** [forward] returns nothing and has no statement that abandons the
    pass (no check of the transitions, no early return): an outcome of
    the pass is always the state after the last step. *)
Inductive outcome := Rejected | Completed (s : ThinStack).

Definition forward_outcome (stray : region → Z → Z) (spec : ModelSpec)
    (params : ThinStackParameters) (s : ThinStack) : outcome :=
  Completed (forward stray spec params s).

(** ** Concrete inputs *)

(** B = 1, D = 2, T = 3. *)
Definition spec_ex : ModelSpec :=
  {| batch_size := 1; model_dim := 2; seq_length := 3 |}.

Definition params_of (W_l W_r b : list Z) : ThinStackParameters :=
  {| project_W := []; project_b := [];
     buffer_bn_ts := []; buffer_bn_tm := [];
     tracking_W_inp := []; tracking_W_hid := []; tracking_b := [];
     compose_W_l := W_l; compose_W_r := W_r; compose_W_ext := [];
     compose_b := b |}.

(** W_l = [[1,100],[10,1000]], W_r = [[3,7],[5,11]] (column-major), no
    bias. *)
Definition params_ex : ThinStackParameters :=
  params_of [1; 10; 100; 1000] [3; 5; 7; 11] [0; 0].

(** A freshly constructed object for [spec_ex] whose arrays hold
    leftovers, with the buffer rows [1,1], [2,2], [3,3] and the given
    transitions as inputs. *)
Definition object_ex (trs : list Z) : ThinStack :=
  {| X := [1; 1; 2; 2; 3; 3]; transitions := trs;
     stack := [9; 9; 9; 9; 9; 9]; queue := [9; 9; 9]; cursors := [9];
     buffer := [];
     buffer_top_t := [7; 7]; stack_1_t := [7; 7]; stack_2_ptrs := [7];
     stack_2_t := [7; 7]; push_output := [7; 7]; merge_output := [7; 7];
     buffer_cur_t := [9] |}.

Definition stray_ex : region → Z → Z := λ _ k, 100 + k.

(** An array whose every cell is zero. *)
Definition all_zero (a : list Z) : Prop := a = zeros (len a).

(** Reset as the specification words it: the three structures and the
    per-step arrays all zero. *)
Definition reset_zeroes_everything (s : ThinStack) : Prop :=
  all_zero (stack s) ∧ all_zero (queue s) ∧ all_zero (cursors s)
  ∧ all_zero (buffer_top_t s) ∧ all_zero (stack_1_t s)
  ∧ all_zero (stack_2_ptrs s) ∧ all_zero (stack_2_t s)
  ∧ all_zero (push_output s) ∧ all_zero (merge_output s)
  ∧ all_zero (buffer_cur_t s).

(** B = 1, D = 1, T = 1, for the Composition Unit on single numbers. *)
Definition spec_one : ModelSpec :=
  {| batch_size := 1; model_dim := 1; seq_length := 1 |}.

(** The end-to-end scenario as the specification words it, for an
    object [s] of [spec_ex] whose inputs are the three buffer rows and
    shift, shift, reduce: the stack row and the cursor after each of the
    three timesteps. *)
Definition scenario_as_specified (stray : region → Z → Z)
    (params : ThinStackParameters) (s : ThinStack) : Prop :=
  let after (t : nat) :=
    steps stray spec_ex params (S t) (zero spec_ex (bind_buffer s)) in
  row spec_ex (stack (after 0%nat)) 0 = [1; 1]
  ∧ elt (cursors (after 0%nat)) 0 = 1
  ∧ row spec_ex (stack (after 1%nat)) 1 = [2; 2]
  ∧ elt (cursors (after 1%nat)) 0 = 2
  ∧ row spec_ex (stack (after 2%nat)) 2
    = tab 2 (λ j, matvec spec_ex (compose_W_l params) (elt [1; 1]) j
                  + matvec spec_ex (compose_W_r params) (elt [2; 2]) j
                  + elt (compose_b params) j)
  ∧ elt (cursors (after 2%nat)) 0 = 2.

(** ** The device allocations of the object *)

Module Lifetime.

(** The device heap as the allocation calls see it: the live blocks
    with their sizes in bytes, the next address [cudaMalloc] hands out,
    and the addresses given to [cudaFree] that were not live blocks
    (for which [cudaFree] reports an error and releases nothing).
    [cudaMalloc] is taken to succeed: the program never looks at its
    status. *)
Record heap := {
  live : gmap nat Z;
  fresh : nat;
  invalid_frees : list nat
}.

Definition cudaMalloc (bytes : Z) (h : heap) : nat * heap :=
  (fresh h,
   {| live := <[fresh h := bytes]> (live h);
      fresh := S (fresh h);
      invalid_frees := invalid_frees h |}).

Definition cudaFree (p : nat) (h : heap) : heap :=
  match live h !! p with
  | Some _ =>
      {| live := delete p (live h); fresh := fresh h;
         invalid_frees := invalid_frees h |}
  | None =>
      {| live := live h; fresh := fresh h;
         invalid_frees := invalid_frees h ++ [p] |}
  end.

Definition sizeof_float : Z := 4.

(** The pointer members of a [ThinStack] object. *)
Record pointers := {
  X : nat;
  transitions : nat;
  stack : nat;
  queue : nat;
  cursors : nat;
  buffer : nat;
  buffer_top_idxs_t : nat;
  buffer_top_t : nat;
  stack_1_ptrs : nat;
  stack_1_t : nat;
  stack_2_ptrs : nat;
  stack_2_t : nat;
  push_output : nat;
  merge_output : nat;
  buffer_cur_t : nat;
  batch_range : nat;
  batch_ones : nat
}.

(** The constructor, with [init_helpers] at its end: seventeen
    allocations, in the order of the source. *)
Definition construct (spec : ModelSpec) (h : heap) : pointers * heap :=
  let B := batch_size spec in
  let D := model_dim spec in
  let T := seq_length spec in
  let stack_total_size := (T * B) * D in
  let buffer_total_size := B * T * D in
  let queue_total_size := B * T in
  let cursors_total_size := B in
  let '(pX, h) := cudaMalloc (B * T * D * sizeof_float) h in
  let '(ptransitions, h) := cudaMalloc (B * T * sizeof_float) h in
  let '(pstack, h) := cudaMalloc (stack_total_size * sizeof_float) h in
  let '(pqueue, h) := cudaMalloc (queue_total_size * sizeof_float) h in
  let '(pcursors, h) := cudaMalloc (cursors_total_size * sizeof_float) h in
  let '(pbuffer, h) := cudaMalloc (buffer_total_size * sizeof_float) h in
  let '(pbuffer_top_idxs_t, h) := cudaMalloc (B * sizeof_float) h in
  let '(pbuffer_top_t, h) := cudaMalloc (B * D * sizeof_float) h in
  let '(pstack_1_ptrs, h) := cudaMalloc (B * sizeof_float) h in
  let '(pstack_1_t, h) := cudaMalloc (D * B * sizeof_float) h in
  let '(pstack_2_ptrs, h) := cudaMalloc (B * sizeof_float) h in
  let '(pstack_2_t, h) := cudaMalloc (D * B * sizeof_float) h in
  let '(ppush_output, h) := cudaMalloc (B * D * sizeof_float) h in
  let '(pmerge_output, h) := cudaMalloc (B * D * sizeof_float) h in
  let '(pbuffer_cur_t, h) := cudaMalloc (B * sizeof_float) h in
  let '(pbatch_range, h) := cudaMalloc (B * sizeof_float) h in
  let '(pbatch_ones, h) := cudaMalloc (B * sizeof_float) h in
  ({| X := pX; transitions := ptransitions; stack := pstack;
      queue := pqueue; cursors := pcursors; buffer := pbuffer;
      buffer_top_idxs_t := pbuffer_top_idxs_t;
      buffer_top_t := pbuffer_top_t; stack_1_ptrs := pstack_1_ptrs;
      stack_1_t := pstack_1_t; stack_2_ptrs := pstack_2_ptrs;
      stack_2_t := pstack_2_t; push_output := ppush_output;
      merge_output := pmerge_output; buffer_cur_t := pbuffer_cur_t;
      batch_range := pbatch_range; batch_ones := pbatch_ones |}, h).

(** What [forward] does to the pointers: [buffer = X]. *)
Definition forward (ps : pointers) : pointers :=
  {| X := X ps; transitions := transitions ps; stack := stack ps;
     queue := queue ps; cursors := cursors ps; buffer := X ps;
     buffer_top_idxs_t := buffer_top_idxs_t ps;
     buffer_top_t := buffer_top_t ps; stack_1_ptrs := stack_1_ptrs ps;
     stack_1_t := stack_1_t ps; stack_2_ptrs := stack_2_ptrs ps;
     stack_2_t := stack_2_t ps; push_output := push_output ps;
     merge_output := merge_output ps; buffer_cur_t := buffer_cur_t ps;
     batch_range := batch_range ps; batch_ones := batch_ones ps |}.

(** [free_helpers]. *)
Definition free_helpers (ps : pointers) (h : heap) : heap :=
  let h := cudaFree (batch_ones ps) h in
  cudaFree (batch_range ps) h.

(** The destructor. *)
Definition destroy (ps : pointers) (h : heap) : heap :=
  let h := free_helpers ps h in
  let h := cudaFree (X ps) h in
  let h := cudaFree (transitions ps) h in
  let h := cudaFree (stack ps) h in
  let h := cudaFree (queue ps) h in
  let h := cudaFree (cursors ps) h in
  let h := cudaFree (buffer ps) h in
  let h := cudaFree (buffer_top_idxs_t ps) h in
  let h := cudaFree (buffer_top_t ps) h in
  let h := cudaFree (stack_1_ptrs ps) h in
  let h := cudaFree (stack_2_ptrs ps) h in
  let h := cudaFree (push_output ps) h in
  let h := cudaFree (merge_output ps) h in
  cudaFree (buffer_cur_t ps) h.

(** The blocks handed to [cudaFree], one after the other. *)
Definition free_all (l : list nat) (h : heap) : heap :=
  foldl (λ h p, cudaFree p h) h l.

(** The allocator's invariant: every live block lies below the next
    fresh address. *)
Definition heap_ok (h : heap) : Prop :=
  ∀ p, is_Some (live h !! p) → (p < fresh h)%nat.

Definition empty_heap : heap :=
  {| live := ∅; fresh := 0; invalid_frees := [] |}.

End Lifetime.
(** ** Basic facts about flat arrays *)

Lemma length_tab n f : length (tab n f) = Z.to_nat n.
Proof. unfold tab. by rewrite length_fmap, length_seqZ. Qed.

Lemma len_tab n f : 0 ≤ n → len (tab n f) = n.
Proof. intros. unfold len. rewrite length_tab. lia. Qed.

Lemma elt_tab n f k : 0 ≤ k < n → elt (tab n f) k = f k.
Proof.
  intros Hk. unfold elt, tab.
  rewrite list_lookup_total_alt, list_lookup_fmap.
  rewrite lookup_seqZ_lt by lia. simpl. f_equal. lia.
Qed.

Lemma len_nonneg a : 0 ≤ len a.
Proof. unfold len. lia. Qed.

Lemma elt_ext (a b : list Z) :
  length a = length b → (∀ k, 0 ≤ k < len a → elt a k = elt b k) → a = b.
Proof.
  intros Hl He. apply list_eq_same_length with (length a); [done | done |].
  intros i x y Hi Hx Hy.
  specialize (He (Z.of_nat i)). unfold elt, len in He.
  rewrite Nat2Z.id in He.
  rewrite !list_lookup_total_alt, Hx, Hy in He. simpl in He. apply He. lia.
Qed.

Lemma tab_len_id a : tab (len a) (elt a) = a.
Proof.
  apply elt_ext.
  - rewrite length_tab. unfold len. lia.
  - intros k Hk. rewrite len_tab in Hk by apply len_nonneg. by rewrite elt_tab.
Qed.

Lemma elt_zeros n k : 0 ≤ k < n → elt (zeros n) k = 0.
Proof. intros. unfold zeros. by rewrite elt_tab. Qed.

Lemma len_poke a k v : len (poke a k v) = len a.
Proof. unfold poke, len. case_match; [by rewrite length_insert | done]. Qed.

Lemma elt_poke_eq a k v : 0 ≤ k < len a → elt (poke a k v) k = v.
Proof.
  intros Hk. unfold poke, elt, len in *.
  replace (0 <=? k) with true by lia.
  rewrite list_lookup_total_alt, list_lookup_insert_eq by lia. done.
Qed.

Lemma elt_poke_ne a k v j : 0 ≤ j → j ≠ k → elt (poke a k v) j = elt a j.
Proof.
  intros Hj Hne. unfold poke, elt.
  case_match; [|done].
  rewrite !list_lookup_total_alt, list_lookup_insert_ne by lia. done.
Qed.

Lemma elt_offset_ptr a k i : 0 ≤ k → 0 ≤ i → elt (offset_ptr a k) i = elt a (k + i).
Proof.
  intros Hk Hi. unfold elt, offset_ptr.
  rewrite !list_lookup_total_alt, lookup_drop.
  by replace (Z.to_nat k + Z.to_nat i)%nat with (Z.to_nat (k + i)) by lia.
Qed.

(** ** Facts about the kernels *)

Lemma tab_ext n f g : (∀ k, 0 ≤ k < n → f k = g k) → tab n f = tab n g.
Proof.
  intros H. destruct (Z.le_gt_cases 0 n) as [Hn | Hn].
  - apply elt_ext.
    + by rewrite !length_tab.
    + intros k Hk. rewrite len_tab in Hk by done. rewrite !elt_tab by done. auto.
  - unfold tab. rewrite !seqZ_nil by lia. done.
Qed.

Lemma memset0_all a n : len a = n → memset0 a n = zeros n.
Proof.
  intros Hn. unfold memset0, zeros. rewrite Hn.
  apply tab_ext. intros k Hk. by replace (k <? n) with true by lia.
Qed.

Lemma len_memset0 a n : len (memset0 a n) = len a.
Proof. unfold memset0. apply len_tab, len_nonneg. Qed.

Lemma len_cublasSaxpy n alpha x y : len (cublasSaxpy n alpha x y) = len y.
Proof. unfold cublasSaxpy. apply len_tab, len_nonneg. Qed.

Lemma elt_cublasSaxpy n alpha x y i :
  0 ≤ i < len y → i < n →
  elt (cublasSaxpy n alpha x y) i = alpha * elt x i + elt y i.
Proof.
  intros Hi Hn. unfold cublasSaxpy. rewrite elt_tab by done.
  by replace (i <? n) with true by lia.
Qed.

Lemma len_cublasSgemm m n k alpha A lda Bm ldb beta C ldc :
  len (cublasSgemm m n k alpha A lda Bm ldb beta C ldc) = len C.
Proof. unfold cublasSgemm. apply len_tab, len_nonneg. Qed.

Section KernelFacts.

Variable stray : region → Z → Z.
Variable spec : ModelSpec.

Lemma len_batch_range : 0 ≤ batch_size spec → len (batch_range spec) = batch_size spec.
Proof. intros. unfold batch_range. by apply len_tab. Qed.

Lemma elt_batch_range i : 0 ≤ i < batch_size spec → elt (batch_range spec) i = i.
Proof. intros. unfold batch_range. by rewrite elt_tab. Qed.

Lemma elt_batch_ones i : 0 ≤ i < batch_size spec → elt (batch_ones spec) i = 1.
Proof. intros. unfold batch_ones. by rewrite elt_tab. Qed.

Lemma len_subtensor1 rg dst src idxs src_N N D shift mul coeff vec :
  len (subtensor1 stray rg dst src idxs src_N N D shift mul coeff vec) = len dst.
Proof. unfold subtensor1. apply len_tab, len_nonneg. Qed.

(** Cell [j] of gathered row [i]. *)
Lemma elt_subtensor1 rg dst src idxs src_N N D shift mul coeff vec i j :
  0 ≤ i < N → 0 ≤ j < D → i * D + j < len dst →
  elt (subtensor1 stray rg dst src idxs src_N N D shift mul coeff vec) (i * D + j)
  = peek stray rg src (kernel_idx idxs shift mul coeff vec i * D + j).
Proof.
  intros Hi Hj Hl. unfold subtensor1. rewrite elt_tab by nia.
  replace (i * D + j <? N * D) with true by nia.
  replace ((i * D + j) `div` D) with i by (apply Z.div_unique with j; lia).
  replace ((i * D + j) `mod` D) with j by (apply Z.mod_unique with i; lia).
  done.
Qed.

Lemma len_addi_vv v1 v2 c1 c2 N : len (addi_vv v1 v2 c1 c2 N) = len v1.
Proof. unfold addi_vv. apply len_tab, len_nonneg. Qed.

Lemma len_switch_m dst off mask ift iff N D :
  len (switch_m dst off mask ift iff N D) = len dst.
Proof. unfold switch_m. apply len_tab, len_nonneg. Qed.

(** [switch_m] leaves every cell outside the written window alone. *)
Lemma elt_switch_m_out dst off mask ift iff N D p :
  0 ≤ p < len dst → ¬ (off ≤ p < off + N * D) →
  elt (switch_m dst off mask ift iff N D) p = elt dst p.
Proof.
  intros Hp Hout. unfold switch_m. rewrite elt_tab by done.
  replace ((off <=? p) && (p <? off + N * D)) with false; [done|].
  symmetry. apply andb_false_iff. lia.
Qed.

(** Inside the window, row [i] is the selected row. *)
Lemma elt_switch_m_in dst off mask ift iff N D i j :
  0 ≤ off → 0 ≤ i < N → 0 ≤ j < D → off + i * D + j < len dst →
  elt (switch_m dst off mask ift iff N D) (off + i * D + j)
  = if elt mask i =? 1 then elt ift (i * D + j) else elt iff (i * D + j).
Proof.
  intros Hoff Hi Hj Hlen. unfold switch_m. rewrite elt_tab by nia.
  replace ((off <=? off + i * D + j) && (off + i * D + j <? off + N * D))
    with true by (symmetry; apply andb_true_iff; nia).
  replace (off + i * D + j - off) with (i * D + j) by lia.
  replace ((i * D + j) `div` D) with i by (apply Z.div_unique with j; lia).
  done.
Qed.

Lemma len_set_subtensor1i_s dst v idxs N shift coeff vec :
  len (set_subtensor1i_s dst v idxs N shift coeff vec) = len dst.
Proof.
  unfold set_subtensor1i_s. generalize (seqZ 0 N). intros l.
  revert dst. induction l as [|i l IH]; intros dst; simpl; [done|].
  by rewrite IH, len_poke.
Qed.

Lemma zero_allocated s : allocated spec s → allocated spec (zero spec s).
Proof.
  intros [? ? ? ? ? ? ? ? ? ? ? ?].
  split; simpl; rewrite ?len_memset0; done.
Qed.

Lemma bind_buffer_allocated s : allocated spec s → allocated spec (bind_buffer s).
Proof. intros [? ? ? ? ? ? ? ? ? ? ? ?]. by split. Qed.

End KernelFacts.

(** ** What one step does to each array *)

Section StepFacts.

Variable stray : region → Z → Z.
Variable spec : ModelSpec.
Variable params : ThinStackParameters.
Hypothesis Hvalid : valid_spec spec.

Local Abbreviation B := (batch_size spec).
Local Abbreviation D := (model_dim spec).
Local Abbreviation T := (seq_length spec).
Local Abbreviation step := (step stray spec params).
Local Abbreviation steps := (steps stray spec params).

Lemma step_inputs s t :
  X (step s t) = X s ∧ transitions (step s t) = transitions s
  ∧ buffer (step s t) = buffer s ∧ push_output (step s t) = push_output s.
Proof. done. Qed.

Lemma steps_inputs n s :
  X (steps n s) = X s ∧ transitions (steps n s) = transitions s
  ∧ buffer (steps n s) = buffer s ∧ push_output (steps n s) = push_output s.
Proof.
  induction n as [|n IH]; [done|].
  destruct IH as (HX & Htr & Hbuf & Hpush).
  change (steps (S n) s) with (step (steps n s) (Z.of_nat n)).
  destruct (step_inputs (steps n s) (Z.of_nat n)) as (-> & -> & -> & ->). done.
Qed.

Lemma step_allocated s t : allocated spec s → allocated spec (step s t).
Proof.
  destruct Hvalid as (HB & HD & HT).
  intros [? ? ? ? ? ? ? ? ? ? ? ?].
  split; unfold step; cbn [X transitions stack queue cursors buffer_top_t
    stack_1_t stack_2_ptrs stack_2_t push_output merge_output buffer_cur_t];
    try done.
  - unfold mask_and_update_stack. by rewrite len_switch_m.
  - by rewrite len_set_subtensor1i_s.
  - unfold mask_and_update_cursors. by rewrite !len_cublasSaxpy.
  - by rewrite len_subtensor1.
  - by rewrite len_subtensor1.
  - by rewrite len_addi_vv, len_subtensor1.
  - by rewrite len_subtensor1.
  - unfold recurrence. by rewrite !len_cublasSgemm.
  - unfold update_buffer_cur. by rewrite !len_cublasSaxpy.
Qed.

Lemma steps_allocated n s : allocated spec s → allocated spec (steps n s).
Proof.
  intros H. induction n as [|n IH]; [done|].
  change (steps (S n) s) with (step (steps n s) (Z.of_nat n)).
  by apply step_allocated.
Qed.

(** The two accumulators. *)
Lemma cursors_step s t i :
  len (cursors s) = B → 0 ≤ t → 0 ≤ i < B →
  elt (cursors (step s t)) i
  = elt (cursors s) i + 1 - 2 * tr_at spec (transitions s) i t.
Proof.
  destruct Hvalid as (HB & HD & HT). intros Hl Ht Hi.
  unfold step; cbn [cursors]. unfold mask_and_update_cursors.
  rewrite elt_cublasSaxpy by (rewrite ?len_cublasSaxpy; lia).
  rewrite elt_cublasSaxpy by lia.
  rewrite elt_batch_ones by done.
  rewrite elt_offset_ptr by nia. unfold tr_at. lia.
Qed.

Lemma buffer_cur_step s t i :
  len (buffer_cur_t s) = B → 0 ≤ t → 0 ≤ i < B →
  elt (buffer_cur_t (step s t)) i
  = elt (buffer_cur_t s) i + 1 - tr_at spec (transitions s) i t.
Proof.
  destruct Hvalid as (HB & HD & HT). intros Hl Ht Hi.
  unfold step; cbn [buffer_cur_t]. unfold update_buffer_cur.
  rewrite elt_cublasSaxpy by (rewrite ?len_cublasSaxpy; lia).
  rewrite elt_cublasSaxpy by lia.
  rewrite elt_batch_ones by done.
  rewrite elt_offset_ptr by nia. unfold tr_at. lia.
Qed.

(** The stack: the frame and the written row. *)
Lemma stack_step_frame s t p :
  0 ≤ p < len (stack s) → ¬ (t * B * D ≤ p < t * B * D + B * D) →
  elt (stack (step s t)) p = elt (stack s) p.
Proof.
  intros Hp Hout. unfold step; cbn [stack]. unfold mask_and_update_stack.
  by apply elt_switch_m_out.
Qed.

Lemma len_stack_step s t : len (stack (step s t)) = len (stack s).
Proof. unfold step; cbn [stack]. unfold mask_and_update_stack. apply len_switch_m. Qed.

Lemma len_stack_steps n s : len (stack (steps n s)) = len (stack s).
Proof.
  induction n as [|n IH]; [done|].
  change (steps (S n) s) with (step (steps n s) (Z.of_nat n)).
  by rewrite len_stack_step.
Qed.

Lemma stack_step_written s t i j :
  len (stack s) = T * B * D → 0 ≤ t < T → 0 ≤ i < B → 0 ≤ j < D →
  elt (stack (step s t)) ((t * B + i) * D + j)
  = if tr_at spec (transitions s) i t =? 1
    then elt (merge_output (step s t)) (i * D + j)
    else elt (buffer_top_t (step s t)) (i * D + j).
Proof.
  destruct Hvalid as (HB & HD & HT).
  intros Hl Ht Hi Hj. unfold step; cbn [stack merge_output buffer_top_t].
  unfold mask_and_update_stack.
  replace ((t * B + i) * D + j) with (t * B * D + i * D + j) by lia.
  assert (t * B + i + 1 ≤ T * B) by nia.
  assert ((t * B + i + 1) * D ≤ T * B * D) by nia.
  rewrite elt_switch_m_in by nia.
  rewrite elt_offset_ptr by nia. done.
Qed.

(** The gathers. *)
Lemma row_cell_bound i j : 0 ≤ i < B → 0 ≤ j < D → 0 ≤ i * D + j < B * D.
Proof. intros Hi Hj. assert ((i + 1) * D ≤ B * D) by nia. nia. Qed.

Lemma buffer_top_step s t i j :
  len (buffer_top_t s) = B * D → 0 ≤ i < B → 0 ≤ j < D →
  elt (buffer_top_t (step s t)) (i * D + j)
  = peek stray Rbuffer (buffer s) ((elt (buffer_cur_t s) i * B + i) * D + j).
Proof.
  intros Hl Hi Hj. pose proof (row_cell_bound i j Hi Hj).
  unfold step; cbn [buffer_top_t].
  rewrite elt_subtensor1 by (done || lia). unfold kernel_idx.
  rewrite elt_batch_range by done. f_equal. lia.
Qed.

Lemma stack_1_step s t i j :
  len (stack_1_t s) = D * B → 0 ≤ i < B → 0 ≤ j < D →
  elt (stack_1_t (step s t)) (i * D + j)
  = peek stray Rstack (stack s) (stack_1_idx spec t i * D + j).
Proof.
  intros Hl Hi Hj. pose proof (row_cell_bound i j Hi Hj).
  unfold step; cbn [stack_1_t]. by rewrite elt_subtensor1 by (done || lia).
Qed.

Lemma stack_1_idx_eq t i : 0 ≤ i < B → stack_1_idx spec t i = (t - 1) * B + i.
Proof.
  intros Hi. unfold stack_1_idx, kernel_idx. rewrite elt_batch_range by done. lia.
Qed.

(** At t = 0 the right-child gather reads below the stack. *)
Lemma stack_1_first_step s i j :
  len (stack_1_t s) = D * B → 0 ≤ i < B → 0 ≤ j < D →
  elt (stack_1_t (step s 0)) (i * D + j) = stray Rstack ((i - B) * D + j).
Proof.
  destruct Hvalid as (HB & HD & HT). intros Hl Hi Hj.
  rewrite stack_1_step by done. rewrite stack_1_idx_eq by done.
  unfold peek.
  replace (0 <=? ((0 - 1) * B + i) * D + j) with false by nia.
  simpl. f_equal. lia.
Qed.

Lemma queue_read_idx_eq curs i :
  0 ≤ i < B → queue_read_idx spec curs i = elt curs i - 1 + i * T.
Proof.
  intros Hi. unfold queue_read_idx, kernel_idx. rewrite elt_batch_range by done. lia.
Qed.

Lemma queue_write_idx_eq curs i :
  0 ≤ i < B → queue_write_idx spec curs i = elt curs i + i * T.
Proof.
  intros Hi. unfold queue_write_idx, kernel_idx. rewrite elt_batch_range by done. lia.
Qed.

(** The queue gather copies rows of width [seq_length]: cell [i] of
    [stack_2_ptrs] is cell [i mod seq_length] of the gathered row
    [i / seq_length]. *)
Lemma stack_2_ptrs_step s t i :
  len (stack_2_ptrs s) = B → 0 ≤ i < B →
  elt (stack_2_ptrs (step s t)) i
  = peek stray Rqueue (queue s)
      (queue_read_idx spec (cursors s) (i `div` T) * T + i `mod` T) * B
    + i.
Proof.
  destruct Hvalid as (HB & HD & HT). intros Hl Hi.
  unfold step; cbn [stack_2_ptrs]. unfold addi_vv.
  rewrite len_subtensor1, Hl. rewrite elt_tab by lia.
  replace (i <? B) with true by lia.
  rewrite elt_batch_range by done.
  unfold subtensor1. rewrite Hl, elt_tab by lia.
  replace (i <? B * T) with true by nia.
  unfold queue_read_idx. lia.
Qed.

Lemma stack_2_step s t i j :
  len (stack_2_t s) = D * B → 0 ≤ i < B → 0 ≤ j < D →
  elt (stack_2_t (step s t)) (i * D + j)
  = peek stray Rstack (stack s) (elt (stack_2_ptrs (step s t)) i * D + j).
Proof.
  intros Hl Hi Hj. pose proof (row_cell_bound i j Hi Hj).
  unfold step at 1; cbn [stack_2_t].
  rewrite elt_subtensor1 by (done || lia). unfold kernel_idx.
  f_equal. unfold step; cbn [stack_2_ptrs]. lia.
Qed.

End StepFacts.

(** ** The scatter into the queue *)

Section Scatter.

Variable f : Z → Z.
Variable v : Z.

Local Abbreviation scatter := (foldl (λ q i, poke q (f i) v)).

Lemma len_scatter l q : len (scatter q l) = len q.
Proof.
  revert q. induction l as [|i l IH]; intros q; simpl; [done|].
  by rewrite IH, len_poke.
Qed.

Lemma scatter_keep l q k :
  0 ≤ k < len q → elt q k = v → elt (scatter q l) k = v.
Proof.
  revert q. induction l as [|i l IH]; intros q Hk Hq; simpl; [done|].
  apply IH; [by rewrite len_poke|].
  destruct (decide (f i = k)) as [-> | Hne].
  - by apply elt_poke_eq.
  - rewrite elt_poke_ne by lia. done.
Qed.

Lemma scatter_hit l q i :
  i ∈ l → 0 ≤ f i < len q → elt (scatter q l) (f i) = v.
Proof.
  revert q. induction l as [|i' l IH]; intros q Hin Hk; [by inversion Hin|].
  simpl. apply elem_of_cons in Hin as [-> | Hin].
  - apply scatter_keep; [by rewrite len_poke | by apply elt_poke_eq].
  - apply IH; [done | by rewrite len_poke].
Qed.

Lemma scatter_miss l q k :
  0 ≤ k → (∀ i, i ∈ l → f i ≠ k) → elt (scatter q l) k = elt q k.
Proof.
  revert q. induction l as [|i l IH]; intros q Hk Hne; simpl; [done|].
  rewrite IH.
  - apply elt_poke_ne; [done|]. intros ->. eapply Hne; [|done]. by left.
  - done.
  - intros i' Hi'. apply Hne. by right.
Qed.

End Scatter.

Section QueueFacts.

Variable stray : region → Z → Z.
Variable spec : ModelSpec.
Variable params : ThinStackParameters.

Local Abbreviation B := (batch_size spec).
Local Abbreviation T := (seq_length spec).
Local Abbreviation step := (step stray spec params).

Lemma elem_of_seqZ_0 n i : i ∈ seqZ 0 n ↔ 0 ≤ i < n.
Proof. rewrite elem_of_seqZ. lia. Qed.

Lemma len_queue_step s t : len (queue (step s t)) = len (queue s).
Proof. unfold step; cbn [queue]. apply len_set_subtensor1i_s. Qed.

(** The cell indexed by the updated cursor of example [i] receives [t]. *)
Lemma queue_step_hit s t i :
  0 ≤ i < B →
  0 ≤ queue_write_idx spec (cursors (step s t)) i < len (queue s) →
  elt (queue (step s t)) (queue_write_idx spec (cursors (step s t)) i) = t.
Proof.
  intros Hi Hw. unfold step at 1; cbn [queue]. unfold set_subtensor1i_s.
  apply (scatter_hit
    (λ i, kernel_idx (cursors (step s t)) 0 1 T (Some (batch_range spec)) i) t).
  - by apply elem_of_seqZ_0.
  - exact Hw.
Qed.

(** Every other cell keeps its value. *)
Lemma queue_step_miss s t k :
  0 ≤ k →
  (∀ i, 0 ≤ i < B → queue_write_idx spec (cursors (step s t)) i ≠ k) →
  elt (queue (step s t)) k = elt (queue s) k.
Proof.
  intros Hk Hne. unfold step at 1; cbn [queue]. unfold set_subtensor1i_s.
  apply (scatter_miss
    (λ i, kernel_idx (cursors (step s t)) 0 1 T (Some (batch_range spec)) i) t);
    [done|].
  intros i Hi. apply Hne. by apply elem_of_seqZ_0.
Qed.

End QueueFacts.

(** ** The composition *)

Lemma sum_upto_ext n f g :
  (∀ l, 0 ≤ l < Z.of_nat n → f l = g l) → sum_upto n f = sum_upto n g.
Proof.
  induction n as [|n IH]; intros H; simpl; [done|].
  rewrite IH by (intros; apply H; lia). rewrite H by lia. done.
Qed.

Section RecurrenceFacts.

Variable spec : ModelSpec.
Variable params : ThinStackParameters.
Hypothesis Hvalid : valid_spec spec.

Local Abbreviation B := (batch_size spec).
Local Abbreviation D := (model_dim spec).

(** Feature [j] of example [i] after [recurrence]: the two products,
    accumulated, and nothing else. *)
Lemma recurrence_elt mo s1 s2 bt i j :
  len mo = B * D → 0 ≤ i < B → 0 ≤ j < D →
  elt (recurrence spec params mo s1 s2 bt) (i * D + j)
  = matvec spec (compose_W_l params) (λ l, elt s2 (i * D + l)) j
    + matvec spec (compose_W_r params) (λ l, elt s1 (i * D + l)) j.
Proof.
  destruct Hvalid as (HB & HD & HT). intros Hl Hi Hj.
  unfold recurrence, cublasSgemm. cbv zeta.
  rewrite len_tab by apply len_nonneg.
  rewrite Hl. rewrite !elt_tab by nia.
  replace ((i * D + j) `mod` D) with j by (apply Z.mod_unique with i; lia).
  replace ((i * D + j) `div` D) with i by (apply Z.div_unique with j; lia).
  replace ((j <? D) && (i <? B)) with true
    by (symmetry; apply andb_true_iff; lia).
  unfold matvec.
  rewrite (sum_upto_ext _ _ (λ l, elt (compose_W_r params) (j + l * D)
                                   * elt s1 (i * D + l)))
    by (intros; do 2 f_equal; lia).
  rewrite (sum_upto_ext _ (λ l, elt (compose_W_l params) (j + l * D)
                                 * elt s2 (l + i * D))
                          (λ l, elt (compose_W_l params) (j + l * D)
                                 * elt s2 (i * D + l)))
    by (intros; do 2 f_equal; lia).
  lia.
Qed.

End RecurrenceFacts.

(** ** Reset *)

(** C8 (amended).  After [zero()], the reset that [forward] runs, the
    Stack, the Queue, the Cursors and the accumulator [buffer_cur_t] are
    entirely zero, while the per-step temporary containers
    ([buffer_top_t], [stack_1_t], [stack_2_ptrs], [stack_2_t],
    [push_output], [merge_output]) are left as they were. *)
Theorem zero_clears_state_only (spec : ModelSpec) (s : ThinStack) :
  allocated spec s →
  stack (zero spec s)
    = zeros ((seq_length spec * batch_size spec) * model_dim spec)
  ∧ queue (zero spec s) = zeros (batch_size spec * seq_length spec)
  ∧ cursors (zero spec s) = zeros (batch_size spec)
  ∧ buffer_cur_t (zero spec s) = zeros (batch_size spec)
  ∧ buffer_top_t (zero spec s) = buffer_top_t s
  ∧ stack_1_t (zero spec s) = stack_1_t s
  ∧ stack_2_ptrs (zero spec s) = stack_2_ptrs s
  ∧ stack_2_t (zero spec s) = stack_2_t s
  ∧ push_output (zero spec s) = push_output s
  ∧ merge_output (zero spec s) = merge_output s.
Proof.
  intros [? ? ? ? ? ? ? ? ? ? ? ?]. unfold zero; simpl.
  rewrite !memset0_all by done. done.
Qed.

Lemma zero_clears_state_only_witness :
  allocated spec_ex (object_ex [0; 0; 1])
  ∧ stack (zero spec_ex (object_ex [0; 0; 1])) = [0; 0; 0; 0; 0; 0]
  ∧ buffer_top_t (zero spec_ex (object_ex [0; 0; 1])) = [7; 7].
Proof.
  assert (Ha : allocated spec_ex (object_ex [0; 0; 1])) by (split; reflexivity).
  split; [exact Ha|].
  destruct (zero_clears_state_only spec_ex (object_ex [0; 0; 1]) Ha)
    as (Hs & _ & _ & _ & Hb & _).
  split; [exact Hs | exact Hb].
Defined.

(** C8 as stated fails: on a freshly allocated object whose temporary
    containers hold leftovers, [zero()] leaves them non-zero. *)
Lemma zero_keeps_temporaries :
  valid_spec spec_ex ∧ allocated spec_ex (object_ex [0; 0; 1])
  ∧ ¬ reset_zeroes_everything (zero spec_ex (object_ex [0; 0; 1])).
Proof.
  split; [repeat split|]. split; [split; reflexivity|].
  intros (_ & _ & _ & H & _). vm_compute in H. discriminate H.
Qed.

(** ** The first timestep *)

(** C9.  At t = 0, whatever the transitions, the gathers of [step] are
    computed from offsets outside the arrays: for every example the
    right-child gather uses row index [i - batch_size] (base offset
    [(t-1) * batch_size = -batch_size]), which is not a row of the
    stack, and with the cursors zeroed by the reset the queue gather of
    example 0 uses index [-1] (its rows being [seq_length] wide, the
    load is at offset [- seq_length]); the temporaries receive what lies
    at those offsets. *)
Theorem first_step_gathers_outside (stray : region → Z → Z)
    (spec : ModelSpec) (params : ThinStackParameters) (s : ThinStack) :
  valid_spec spec → allocated spec s →
  let z := zero spec (bind_buffer s) in
  (∀ i, 0 ≤ i < batch_size spec →
     stack_1_idx spec 0 i = i - batch_size spec
     ∧ ¬ (0 ≤ stack_1_idx spec 0 i < seq_length spec * batch_size spec)
     ∧ ∀ j, 0 ≤ j < model_dim spec →
         elt (stack_1_t (step stray spec params z 0)) (i * model_dim spec + j)
         = stray Rstack ((i - batch_size spec) * model_dim spec + j))
  ∧ queue_read_idx spec (cursors z) 0 = -1
  ∧ ¬ (0 ≤ queue_read_idx spec (cursors z) 0 < len (queue z))
  ∧ elt (stack_2_ptrs (step stray spec params z 0)) 0
    = stray Rqueue (- seq_length spec) * batch_size spec + 0.
Proof.
  intros Hv Ha z. pose proof Hv as (HB & HD & HT).
  assert (Hq : queue_read_idx spec (cursors z) 0 = -1).
  { rewrite queue_read_idx_eq by lia. unfold z, zero; cbn [cursors bind_buffer].
    rewrite memset0_all by apply Ha. rewrite elt_zeros by lia. lia. }
  split; [|split; [exact Hq | split]].
  - intros i Hi. rewrite stack_1_idx_eq by done.
    split; [lia | split; [lia|]]. intros j Hj.
    apply (stack_1_first_step stray spec params Hv); [|done|done].
    apply (zero_allocated spec _ (bind_buffer_allocated spec _ Ha)).
  - rewrite Hq. lia.
  - rewrite (stack_2_ptrs_step stray spec params Hv); [| |lia].
    + rewrite Z.div_0_l, Z.mod_0_l by lia. rewrite Hq.
      replace (-1 * seq_length spec + 0) with (- seq_length spec) by lia.
      unfold peek. by replace (0 <=? - seq_length spec) with false by lia.
    + apply (zero_allocated spec _ (bind_buffer_allocated spec _ Ha)).
Qed.

Lemma first_step_gathers_outside_witness :
  valid_spec spec_ex ∧ allocated spec_ex (object_ex [0; 0; 1])
  ∧ queue_read_idx spec_ex
      (cursors (zero spec_ex (bind_buffer (object_ex [0; 0; 1])))) 0 = -1.
Proof.
  assert (Hv : valid_spec spec_ex) by (repeat split).
  assert (Ha : allocated spec_ex (object_ex [0; 0; 1])) by (split; reflexivity).
  split; [exact Hv | split; [exact Ha|]].
  exact (proj1 (proj2
    (first_step_gathers_outside stray_ex spec_ex params_ex _ Hv Ha))).
Defined.

(** ** The queue update *)

(** C5 (amended).  At every timestep [t] and for every example [i], the
    queue update of [step] writes the timestep index [t] at the position
    indexed by the example's cursor as it is after that step's cursor
    update, [cursors[i] + 1 - 2 * transition] (flat index
    [cursor_after_update + i * seq_length]), whenever that position lies
    in the queue; the cells no example indexes keep their values. *)
Theorem queue_update_at_updated_cursor (stray : region → Z → Z)
    (spec : ModelSpec) (params : ThinStackParameters)
    (s : ThinStack) (t i : Z) :
  valid_spec spec → len (cursors s) = batch_size spec →
  0 ≤ t → 0 ≤ i < batch_size spec →
  let s' := step stray spec params s t in
  let w := queue_write_idx spec (cursors s') i in
  w = (elt (cursors s) i + 1 - 2 * tr_at spec (transitions s) i t)
      + i * seq_length spec
  ∧ (0 ≤ w < len (queue s) → elt (queue s') w = t)
  ∧ ∀ k, 0 ≤ k →
      (∀ i', 0 ≤ i' < batch_size spec →
         queue_write_idx spec (cursors s') i' ≠ k) →
      elt (queue s') k = elt (queue s) k.
Proof.
  intros Hv Hl Ht Hi s' w. split; [|split].
  - unfold w, s'. rewrite queue_write_idx_eq by done.
    by rewrite (cursors_step stray spec params Hv).
  - intros Hw. by apply queue_step_hit.
  - intros k Hk Hne. by apply queue_step_miss.
Qed.

Lemma queue_update_at_updated_cursor_witness :
  valid_spec spec_ex
  ∧ len (cursors (steps stray_ex spec_ex params_ex 1
                    (zero spec_ex (bind_buffer (object_ex [0; 0; 1])))))
    = batch_size spec_ex
  ∧ 0 ≤ 1 ∧ 0 ≤ 0 < batch_size spec_ex
  ∧ queue_write_idx spec_ex
      (cursors (steps stray_ex spec_ex params_ex 2
                  (zero spec_ex (bind_buffer (object_ex [0; 0; 1]))))) 0
    = (elt (cursors (steps stray_ex spec_ex params_ex 1
                       (zero spec_ex (bind_buffer (object_ex [0; 0; 1]))))) 0
       + 1 - 2 * tr_at spec_ex [0; 0; 1] 0 1) + 0 * seq_length spec_ex.
Proof.
  assert (Hv : valid_spec spec_ex) by (repeat split).
  split; [exact Hv|]. split; [reflexivity|].
  split; [lia|]. split; [simpl; lia|].
  refine (proj1 (queue_update_at_updated_cursor stray_ex spec_ex params_ex
    (steps stray_ex spec_ex params_ex 1
       (zero spec_ex (bind_buffer (object_ex [0; 0; 1])))) 1 0 Hv _ _ _)).
  - reflexivity.
  - lia.
  - simpl; lia.
Defined.

(** C5 as stated fails: in the second step of shift, shift, reduce the
    cursor is 1 before its update, and the queue cell that cursor
    indexes does not receive the timestep 1 (the cell indexed by the
    updated cursor, 2, does). *)
Lemma queue_not_written_at_old_cursor :
  let s1 := steps stray_ex spec_ex params_ex 1
              (zero spec_ex (bind_buffer (object_ex [0; 0; 1]))) in
  let s2 := step stray_ex spec_ex params_ex s1 1 in
  elt (cursors s1) 0 = 1
  ∧ elt (queue s2) (queue_write_idx spec_ex (cursors s1) 0) ≠ 1
  ∧ elt (queue s2) (queue_write_idx spec_ex (cursors s2) 0) = 1.
Proof. vm_compute. split; [done | split; [discriminate | done]]. Qed.

(** ** The stack is written one row per timestep *)

Section StackRows.

Variable stray : region → Z → Z.
Variable spec : ModelSpec.
Variable params : ThinStackParameters.

Local Abbreviation B := (batch_size spec).
Local Abbreviation D := (model_dim spec).
Local Abbreviation step := (step stray spec params).
Local Abbreviation steps := (steps stray spec params).

Lemma stack_steps_keep (n m : nat) s t p :
  0 ≤ B * D → (n ≤ m)%nat → 0 ≤ t < Z.of_nat n →
  0 ≤ p < len (stack s) → in_row spec t p →
  elt (stack (steps m s)) p = elt (stack (steps n s)) p.
Proof.
  intros HBD Hnm Ht Hp Hin. induction Hnm as [|m Hnm IH]; [done|].
  change (steps (S m) s) with (step (steps m s) (Z.of_nat m)).
  rewrite stack_step_frame; [done | by rewrite len_stack_steps |].
  unfold in_row in Hin. nia.
Qed.

End StackRows.

(** C6.  Processing step [t] writes only row [t] of the Stack: every
    cell of a row with another index holds after step [t] what it held
    before, and a row written at timestep [t] is not overwritten by any
    later step of the same pass. *)
Theorem stack_row_written_once (stray : region → Z → Z)
    (spec : ModelSpec) (params : ThinStackParameters) (s : ThinStack) :
  valid_spec spec →
  (∀ t p, 0 ≤ p < len (stack s) → ¬ in_row spec t p →
     elt (stack (step stray spec params s t)) p = elt (stack s) p)
  ∧ (∀ (n m : nat) t p, (n ≤ m)%nat → 0 ≤ t < Z.of_nat n →
       0 ≤ p < len (stack s) → in_row spec t p →
       elt (stack (steps stray spec params m s)) p
       = elt (stack (steps stray spec params n s)) p).
Proof.
  intros (HB & HD & HT). split.
  - intros t p Hp Hout. by apply stack_step_frame.
  - intros n m t p Hnm Ht Hp Hin. apply stack_steps_keep with t; try done. nia.
Qed.

Lemma stack_row_written_once_witness :
  valid_spec spec_ex
  ∧ elt (stack (steps stray_ex spec_ex params_ex 3
                  (zero spec_ex (bind_buffer (object_ex [0; 0; 1]))))) 1
    = elt (stack (steps stray_ex spec_ex params_ex 1
                    (zero spec_ex (bind_buffer (object_ex [0; 0; 1]))))) 1.
Proof.
  assert (Hv : valid_spec spec_ex) by (repeat split).
  split; [exact Hv|].
  refine (proj2 (stack_row_written_once stray_ex spec_ex params_ex
    (zero spec_ex (bind_buffer (object_ex [0; 0; 1]))) Hv) 1%nat 3%nat 0 1 _ _ _ _).
  - lia.
  - lia.
  - vm_compute. split; [discriminate | reflexivity].
  - unfold in_row. simpl. lia.
Defined.

(** ** The two accumulators *)

Section Accumulators.

Variable stray : region → Z → Z.
Variable spec : ModelSpec.
Variable params : ThinStackParameters.
Hypothesis Hvalid : valid_spec spec.

Local Abbreviation B := (batch_size spec).
Local Abbreviation T := (seq_length spec).
Local Abbreviation step := (step stray spec params).
Local Abbreviation steps := (steps stray spec params).

Variable s : ThinStack.
Hypothesis Halloc : allocated spec s.
Hypothesis Hbin : binary spec (transitions s).

Local Abbreviation z := (zero spec (bind_buffer s)).

Lemma start_allocated : allocated spec z.
Proof. by apply zero_allocated, bind_buffer_allocated. Qed.

Lemma transitions_steps n : transitions (steps n z) = transitions s.
Proof. by destruct (steps_inputs stray spec params n z) as (_ & -> & _). Qed.

Lemma cursors_after_step (n : nat) i :
  0 ≤ i < B →
  elt (cursors (steps (S n) z)) i
  = elt (cursors (steps n z)) i + 1 - 2 * tr_at spec (transitions s) i (Z.of_nat n).
Proof.
  intros Hi. change (steps (S n) z) with (step (steps n z) (Z.of_nat n)).
  rewrite (cursors_step stray spec params Hvalid); [| |lia|done].
  - by rewrite transitions_steps.
  - apply steps_allocated; [done | apply start_allocated].
Qed.

Lemma buffer_cur_after_step (n : nat) i :
  0 ≤ i < B →
  elt (buffer_cur_t (steps (S n) z)) i
  = elt (buffer_cur_t (steps n z)) i + 1 - tr_at spec (transitions s) i (Z.of_nat n).
Proof.
  intros Hi. change (steps (S n) z) with (step (steps n z) (Z.of_nat n)).
  rewrite (buffer_cur_step stray spec params Hvalid); [| |lia|done].
  - by rewrite transitions_steps.
  - apply steps_allocated; [done | apply start_allocated].
Qed.

Lemma cursors_depth (n : nat) i :
  0 ≤ i < B → Z.of_nat n ≤ T →
  elt (cursors (steps n z)) i
  = shifts spec (transitions s) i n - reduces spec (transitions s) i n.
Proof.
  intros Hi. induction n as [|n IH]; intros Hn.
  - simpl. rewrite memset0_all by apply Halloc.
    rewrite elt_zeros by lia. done.
  - rewrite cursors_after_step by done. rewrite IH by lia.
    unfold shifts, reduces. cbn [count_label].
    destruct (Hbin i (Z.of_nat n)) as [-> | ->]; [done | lia | |]; simpl; lia.
Qed.

Lemma buffer_cur_shifts (n : nat) i :
  0 ≤ i < B → Z.of_nat n ≤ T →
  elt (buffer_cur_t (steps n z)) i = shifts spec (transitions s) i n.
Proof.
  intros Hi. induction n as [|n IH]; intros Hn.
  - simpl. rewrite memset0_all by apply Halloc.
    rewrite elt_zeros by lia. done.
  - rewrite buffer_cur_after_step by done. rewrite IH by lia.
    unfold shifts. cbn [count_label].
    destruct (Hbin i (Z.of_nat n)) as [-> | ->]; [done | lia | |]; simpl; lia.
Qed.

End Accumulators.

(** C10.  For transitions that hold labels only (so for every
    well-formed input) and every example [i], the array [cursors]
    holds, after the first [n] timesteps, the number of shifts minus the
    number of reduces among them: each step adds [1 - 2 * transition]
    to it, so it is the example's stack depth; the separate accumulator
    [buffer_cur_t], to which each step adds [1 - transition], holds the
    buffer-read offset, the number of shifts. *)
Theorem cursors_hold_stack_depth (stray : region → Z → Z)
    (spec : ModelSpec) (params : ThinStackParameters) (s : ThinStack)
    (i : Z) (n : nat) :
  valid_spec spec → allocated spec s → binary spec (transitions s) →
  0 ≤ i < batch_size spec → Z.of_nat n < seq_length spec →
  let before := steps stray spec params n (zero spec (bind_buffer s)) in
  let after := steps stray spec params (S n) (zero spec (bind_buffer s)) in
  elt (cursors after) i
  = shifts spec (transitions s) i (S n) - reduces spec (transitions s) i (S n)
  ∧ elt (cursors after) i
    = elt (cursors before) i + (1 - 2 * tr_at spec (transitions s) i (Z.of_nat n))
  ∧ elt (buffer_cur_t after) i = shifts spec (transitions s) i (S n)
  ∧ elt (buffer_cur_t after) i
    = elt (buffer_cur_t before) i + (1 - tr_at spec (transitions s) i (Z.of_nat n)).
Proof.
  intros Hv Ha Hb Hi Hn before after. unfold before, after.
  rewrite (cursors_depth stray spec params Hv s Ha Hb) by lia.
  rewrite (buffer_cur_shifts stray spec params Hv s Ha Hb (S n)) by lia.
  rewrite <- (cursors_depth stray spec params Hv s Ha Hb (S n)) by lia.
  rewrite (cursors_after_step stray spec params Hv s Ha) by done.
  rewrite <- (buffer_cur_shifts stray spec params Hv s Ha Hb (S n)) by lia.
  rewrite (buffer_cur_after_step stray spec params Hv s Ha) by done.
  repeat split; lia.
Qed.

Lemma binary_ex : binary spec_ex [0; 0; 1].
Proof.
  intros i t Hi Ht. simpl in Hi, Ht.
  assert (i = 0) as -> by lia.
  assert (t = 0 ∨ t = 1 ∨ t = 2) as [-> | [-> | ->]] by lia;
    vm_compute; auto.
Defined.

Lemma cursors_hold_stack_depth_witness :
  valid_spec spec_ex ∧ allocated spec_ex (object_ex [0; 0; 1])
  ∧ binary spec_ex (transitions (object_ex [0; 0; 1]))
  ∧ elt (cursors (steps stray_ex spec_ex params_ex 3
                    (zero spec_ex (bind_buffer (object_ex [0; 0; 1]))))) 0
    = shifts spec_ex [0; 0; 1] 0 3 - reduces spec_ex [0; 0; 1] 0 3.
Proof.
  assert (Hv : valid_spec spec_ex) by (repeat split).
  assert (Ha : allocated spec_ex (object_ex [0; 0; 1])) by (split; reflexivity).
  split; [exact Hv | split; [exact Ha | split; [exact binary_ex|]]].
  refine (proj1 (cursors_hold_stack_depth stray_ex spec_ex params_ex
    (object_ex [0; 0; 1]) 0 2%nat Hv Ha binary_ex _ _)).
  - simpl; lia.
  - simpl; lia.
Defined.

(** C2 (amended).  The count of shifts is held by the buffer-read
    accumulator [buffer_cur_t], not by [cursors]: for labels-only
    transitions, after processing timestep [t] the accumulator of every
    example equals the number of shifts among timesteps [0 .. t]; each
    step adds [1 - transition] to it, so it never decreases, grows by
    exactly one on a shift and is unchanged on a reduce.  The array
    [cursors] receives [1 - 2 * transition] per step instead. *)
Theorem buffer_cursor_counts_shifts (stray : region → Z → Z)
    (spec : ModelSpec) (params : ThinStackParameters) (s : ThinStack)
    (i : Z) (t : nat) :
  valid_spec spec → allocated spec s → binary spec (transitions s) →
  0 ≤ i < batch_size spec → Z.of_nat t < seq_length spec →
  let tr := tr_at spec (transitions s) i (Z.of_nat t) in
  let before := steps stray spec params t (zero spec (bind_buffer s)) in
  let after := steps stray spec params (S t) (zero spec (bind_buffer s)) in
  elt (buffer_cur_t after) i = shifts spec (transitions s) i (S t)
  ∧ elt (buffer_cur_t after) i = elt (buffer_cur_t before) i + (1 - tr)
  ∧ elt (buffer_cur_t before) i ≤ elt (buffer_cur_t after) i
  ∧ (tr = 0 → elt (buffer_cur_t after) i = elt (buffer_cur_t before) i + 1)
  ∧ (tr = 1 → elt (buffer_cur_t after) i = elt (buffer_cur_t before) i)
  ∧ elt (cursors after) i = elt (cursors before) i + (1 - 2 * tr).
Proof.
  intros Hv Ha Hb Hi Ht tr before after. unfold before, after.
  pose proof (buffer_cur_shifts stray spec params Hv s Ha Hb (S t) i Hi) as Hs.
  pose proof (buffer_cur_after_step stray spec params Hv s Ha t i Hi) as Hstep.
  pose proof (cursors_after_step stray spec params Hv s Ha t i Hi) as Hc.
  fold tr in Hstep, Hc.
  assert (tr = 0 ∨ tr = 1) as Htr by (apply Hb; lia).
  repeat split; lia.
Qed.

Lemma buffer_cursor_counts_shifts_witness :
  valid_spec spec_ex ∧ allocated spec_ex (object_ex [0; 0; 1])
  ∧ binary spec_ex (transitions (object_ex [0; 0; 1]))
  ∧ elt (buffer_cur_t (steps stray_ex spec_ex params_ex 3
                         (zero spec_ex (bind_buffer (object_ex [0; 0; 1]))))) 0
    = shifts spec_ex [0; 0; 1] 0 3.
Proof.
  assert (Hv : valid_spec spec_ex) by (repeat split).
  assert (Ha : allocated spec_ex (object_ex [0; 0; 1])) by (split; reflexivity).
  split; [exact Hv | split; [exact Ha | split; [exact binary_ex|]]].
  refine (proj1 (buffer_cursor_counts_shifts stray_ex spec_ex params_ex
    (object_ex [0; 0; 1]) 0 2%nat Hv Ha binary_ex _ _)).
  - simpl; lia.
  - simpl; lia.
Defined.

(** C2 as stated fails for [cursors]: on shift, shift, reduce there are
    two shifts among timesteps 0..2, yet the cursor is 1 after timestep
    2, having gone down from 2. *)
Lemma cursor_is_not_shift_count :
  let z := zero spec_ex (bind_buffer (object_ex [0; 0; 1])) in
  shifts spec_ex [0; 0; 1] 0 3 = 2
  ∧ elt (cursors (steps stray_ex spec_ex params_ex 3 z)) 0 = 1
  ∧ elt (cursors (steps stray_ex spec_ex params_ex 3 z)) 0
    ≠ shifts spec_ex [0; 0; 1] 0 3
  ∧ ¬ (elt (cursors (steps stray_ex spec_ex params_ex 2 z)) 0
       ≤ elt (cursors (steps stray_ex spec_ex params_ex 3 z)) 0).
Proof. vm_compute. repeat split; try discriminate. intros H; apply H; done. Qed.

(** ** The Composition Unit *)

(** C3.  The specification has the Composition Unit return
    [compose_W_l * L + compose_W_r * R + bias] followed by the
    rectification.  [recurrence] runs the two chained products (the
    second with beta = 1) and stops there, its bias and relu being
    left as TODO: with weights 1, left child 1, right child 2 and bias 5
    it leaves 3 where the specification has 8, and with children -1 and
    -2 and no bias it leaves -3 where the rectification gives 0. *)
Theorem recurrence_omits_bias_and_relu :
  recurrence spec_one (params_of [1] [1] [5]) [0] [2] [1] [0] = [3]
  ∧ composition_spec spec_one (params_of [1] [1] [5]) [1] [2] = [8]
  ∧ recurrence spec_one (params_of [1] [1] [0]) [0] [-2] [-1] [0] = [-3]
  ∧ composition_spec spec_one (params_of [1] [1] [0]) [-1] [-2] = [0].
Proof. vm_compute. done. Qed.

(** ** Transitions that start with a reduce *)

(** C7 (amended).  The core does not validate the transitions: the pass
    always runs to completion, and for an example whose transition at
    t = 0 is a reduce it writes into row 0 of the Stack the composition
    of what the two gathers returned, the right child coming from
    outside the stack's extent; that row is still there at the end of
    the pass. *)
Theorem forward_never_rejects (stray : region → Z → Z)
    (spec : ModelSpec) (params : ThinStackParameters) (s : ThinStack) :
  valid_spec spec → allocated spec s →
  forward_outcome stray spec params s
  = Completed (forward stray spec params s)
  ∧ ∀ i j, 0 ≤ i < batch_size spec → 0 ≤ j < model_dim spec →
      tr_at spec (transitions s) i 0 = 1 →
      let s1 := step stray spec params (zero spec (bind_buffer s)) 0 in
      elt (stack s1) (i * model_dim spec + j)
      = matvec spec (compose_W_l params)
          (λ l, elt (stack_2_t s1) (i * model_dim spec + l)) j
        + matvec spec (compose_W_r params)
            (λ l, stray Rstack ((i - batch_size spec) * model_dim spec + l)) j
      ∧ elt (stack (forward stray spec params s)) (i * model_dim spec + j)
        = elt (stack s1) (i * model_dim spec + j).
Proof.
  intros Hv Ha. split; [done|]. intros i j Hi Hj Htr s1.
  pose proof Hv as (HB & HD & HT).
  pose proof (zero_allocated spec _ (bind_buffer_allocated spec _ Ha)) as Hz.
  split.
  - unfold s1.
    replace (i * model_dim spec + j) with ((0 * batch_size spec + i) * model_dim spec + j) at 1 by lia.
    rewrite (stack_step_written stray spec params Hv); [|apply Hz|lia|done|done].
    change (transitions (zero spec (bind_buffer s))) with (transitions s).
    rewrite Htr. simpl (1 =? 1). cbv iota.
    unfold step at 1; cbn [merge_output].
    rewrite (recurrence_elt spec params Hv); [|apply Hz|done|done].
    f_equal. apply sum_upto_ext. intros l Hl. f_equal.
    apply (stack_1_first_step stray spec params Hv); [apply Hz | done | lia].
  - unfold forward.
    assert (Hn : (1 ≤ Z.to_nat (seq_length spec))%nat) by lia.
    assert (i * model_dim spec + j < batch_size spec * model_dim spec) by nia.
    assert (batch_size spec * model_dim spec
            ≤ seq_length spec * batch_size spec * model_dim spec) by nia.
    apply (stack_steps_keep stray spec params 1 _ _ 0); try lia.
    + destruct Hz as [_ _ Hst _ _ _ _ _ _ _ _ _]. rewrite Hst. lia.
    + unfold in_row. lia.
Qed.

Lemma forward_never_rejects_witness :
  valid_spec spec_ex ∧ allocated spec_ex (object_ex [1; 0; 0])
  ∧ forward_outcome stray_ex spec_ex params_ex (object_ex [1; 0; 0])
    = Completed (forward stray_ex spec_ex params_ex (object_ex [1; 0; 0])).
Proof.
  assert (Hv : valid_spec spec_ex) by (repeat split).
  assert (Ha : allocated spec_ex (object_ex [1; 0; 0])) by (split; reflexivity).
  split; [exact Hv | split; [exact Ha|]].
  exact (proj1 (forward_never_rejects stray_ex spec_ex params_ex _ Hv Ha)).
Defined.

(** C7 as stated fails: with reduce, shift, shift the pass is not
    rejected; it completes, and row 0 of the Stack holds a composition
    of cells read outside the arrays. *)
Lemma reduce_first_is_not_rejected :
  tr_at spec_ex (transitions (object_ex [1; 0; 0])) 0 0 = 1
  ∧ forward_outcome stray_ex spec_ex params_ex (object_ex [1; 0; 0]) ≠ Rejected
  ∧ row spec_ex (stack (forward stray_ex spec_ex params_ex (object_ex [1; 0; 0]))) 0
    = [30781; 299519].
Proof. split; [done|]. split; [discriminate|]. vm_compute. done. Qed.

(** ** The end-to-end scenario *)

Lemma len_1_inv (l : list Z) : len l = 1 → ∃ a, l = [a].
Proof.
  unfold len. destruct l as [|a [|b l]]; simpl; intros H; try lia. by exists a.
Qed.

Lemma len_2_inv (l : list Z) : len l = 2 → ∃ a b, l = [a; b].
Proof.
  unfold len. destruct l as [|a [|b [|c l]]]; simpl; intros H; try lia.
  by exists a, b.
Qed.

(** C4 (amended).  For B = 1, D = 2, T = 3, buffer rows [1,1], [2,2],
    [3,3] and transitions shift, shift, reduce, whatever the weights and
    whatever the arrays held before: after t = 0, Stack[0] = [1,1] and
    both accumulators are 1; after t = 1, Stack[1] = [2,2] and both are
    2; at t = 2 the right child gathered is [2,2], the most recently
    shifted entry, Stack[2] = compose_W_l * (the row gathered as left
    child) + compose_W_r * [2,2] (+ bias, for a bias that is zero), the
    buffer-read accumulator [buffer_cur_t] is unchanged at 2 and
    [cursors] is back to 1, the depth of the stack. *)
Theorem scenario_shift_shift_reduce (stray : region → Z → Z)
    (params : ThinStackParameters) (s : ThinStack) :
  allocated spec_ex s →
  X s = [1; 1; 2; 2; 3; 3] → transitions s = [0; 0; 1] →
  (∀ j, 0 ≤ j < 2 → elt (compose_b params) j = 0) →
  let after (t : nat) :=
    steps stray spec_ex params (S t) (zero spec_ex (bind_buffer s)) in
  row spec_ex (stack (after 0%nat)) 0 = [1; 1]
  ∧ elt (cursors (after 0%nat)) 0 = 1
  ∧ elt (buffer_cur_t (after 0%nat)) 0 = 1
  ∧ row spec_ex (stack (after 1%nat)) 1 = [2; 2]
  ∧ elt (cursors (after 1%nat)) 0 = 2
  ∧ elt (buffer_cur_t (after 1%nat)) 0 = 2
  ∧ stack_1_t (after 2%nat) = [2; 2]
  ∧ row spec_ex (stack (after 2%nat)) 2
    = tab 2 (λ j, matvec spec_ex (compose_W_l params)
                    (elt (stack_2_t (after 2%nat))) j
                  + matvec spec_ex (compose_W_r params) (elt [2; 2]) j
                  + elt (compose_b params) j)
  ∧ elt (cursors (after 2%nat)) 0 = 1
  ∧ elt (buffer_cur_t (after 2%nat)) 0 = 2
  ∧ forward stray spec_ex params s = after 2%nat.
Proof.
  intros Ha HX Htr Hb after.
  assert (Hv : valid_spec spec_ex) by (repeat split).
  pose proof (zero_allocated spec_ex _ (bind_buffer_allocated spec_ex _ Ha)) as Hz.
  destruct (len_2_inv _ (alloc_buffer_top_t _ _ Ha)) as (b0 & b1 & Hbt).
  destruct (len_2_inv _ (alloc_stack_1_t _ _ Ha)) as (p0 & p1 & Hs1).
  destruct (len_1_inv _ (alloc_stack_2_ptrs _ _ Ha)) as (q0 & Hsp).
  destruct (len_2_inv _ (alloc_stack_2_t _ _ Ha)) as (r0 & r1 & Hs2).
  destruct (len_2_inv _ (alloc_merge_output _ _ Ha)) as (m0 & m1 & Hmo).
  set (z := zero spec_ex (bind_buffer s)) in *.
  assert (Hz_eq : z = {| X := [1; 1; 2; 2; 3; 3]; transitions := [0; 0; 1];
      stack := [0; 0; 0; 0; 0; 0]; queue := [0; 0; 0]; cursors := [0];
      buffer := [1; 1; 2; 2; 3; 3];
      buffer_top_t := [b0; b1]; stack_1_t := [p0; p1];
      stack_2_ptrs := [q0]; stack_2_t := [r0; r1];
      push_output := push_output s; merge_output := [m0; m1];
      buffer_cur_t := [0] |}).
  { unfold z, zero, bind_buffer. cbn [X transitions stack queue cursors buffer
      buffer_top_t stack_1_t stack_2_ptrs stack_2_t push_output merge_output
      buffer_cur_t].
    destruct Ha as [_ _ Hst Hq Hc _ _ _ _ _ _ Hbc].
    rewrite !memset0_all by done.
    rewrite HX, Htr, Hbt, Hs1, Hsp, Hs2, Hmo. reflexivity. }
  assert (H0 : row spec_ex (stack (after 0%nat)) 0 = [1; 1]
               ∧ elt (cursors (after 0%nat)) 0 = 1
               ∧ elt (buffer_cur_t (after 0%nat)) 0 = 1).
  { unfold after. rewrite Hz_eq. vm_compute. done. }
  assert (H1 : row spec_ex (stack (after 1%nat)) 1 = [2; 2]
               ∧ elt (cursors (after 1%nat)) 0 = 2
               ∧ elt (buffer_cur_t (after 1%nat)) 0 = 2).
  { unfold after. rewrite Hz_eq. vm_compute. done. }
  assert (H2 : elt (cursors (after 2%nat)) 0 = 1
               ∧ elt (buffer_cur_t (after 2%nat)) 0 = 2).
  { unfold after. rewrite Hz_eq. vm_compute. done. }
  assert (Hg1 : stack_1_t (after 2%nat) = [2; 2]).
  { unfold after. rewrite Hz_eq. vm_compute. done. }
  destruct H0 as (? & ? & ?), H1 as (? & ? & ?), H2 as (? & ?).
  repeat (split; [assumption|]).
  split; [|split; [assumption | split; [assumption | reflexivity]]].
  unfold row. apply tab_ext. intros j Hj. simpl in Hj.
  rewrite Hb by done.
  assert (Hafter : after 2%nat
                   = step stray spec_ex params (steps stray spec_ex params 2 z) 2)
    by reflexivity.
  rewrite Hafter.
  change (2 * model_dim spec_ex + j)
    with ((2 * batch_size spec_ex + 0) * model_dim spec_ex + j).
  pose proof (steps_allocated stray spec_ex params Hv 2 z Hz) as Ha2.
  rewrite (stack_step_written stray spec_ex params Hv);
    [|apply Ha2|simpl; lia|simpl; lia|done].
  destruct (steps_inputs stray spec_ex params 2 z) as (_ & -> & _).
  replace (tr_at spec_ex (transitions z) 0 2) with 1 by (rewrite Hz_eq; reflexivity).
  simpl (1 =? 1). cbv iota.
  unfold step at 1; cbn [merge_output].
  rewrite (recurrence_elt spec_ex params Hv); [|apply Ha2|simpl; lia|done].
  rewrite Z.add_0_r. f_equal; apply sum_upto_ext; intros l Hl; f_equal.
  change (subtensor1 _ _ _ _ _ _ _ _ _ _ _ _)
    with (stack_1_t (step stray spec_ex params (steps stray spec_ex params 2 z) 2)).
  rewrite <- Hafter. by rewrite Hg1.
Qed.

Lemma scenario_shift_shift_reduce_witness :
  allocated spec_ex (object_ex [0; 0; 1])
  ∧ X (object_ex [0; 0; 1]) = [1; 1; 2; 2; 3; 3]
  ∧ transitions (object_ex [0; 0; 1]) = [0; 0; 1]
  ∧ (∀ j, 0 ≤ j < 2 → elt (compose_b params_ex) j = 0)
  ∧ elt (cursors (steps stray_ex spec_ex params_ex 3
                    (zero spec_ex (bind_buffer (object_ex [0; 0; 1]))))) 0 = 1.
Proof.
  assert (Ha : allocated spec_ex (object_ex [0; 0; 1])) by (split; reflexivity).
  assert (Hb : ∀ j, 0 ≤ j < 2 → elt (compose_b params_ex) j = 0).
  { intros j Hj. assert (j = 0 ∨ j = 1) as [-> | ->] by lia; reflexivity. }
  split; [exact Ha|]. split; [reflexivity|]. split; [reflexivity|].
  split; [exact Hb|].
  destruct (scenario_shift_shift_reduce stray_ex params_ex
    (object_ex [0; 0; 1]) Ha eq_refl eq_refl Hb)
    as (_ & _ & _ & _ & _ & _ & _ & _ & Hc & _).
  exact Hc.
Defined.

(** C4 as stated fails on its last clause: with no bias at all, the
    three stack rows are as the scenario has them, but after the reduce
    at t = 2 the cursor is 1, not 2. *)
Lemma scenario_cursor_drops :
  ¬ scenario_as_specified stray_ex params_ex (object_ex [0; 0; 1])
  ∧ elt (cursors (steps stray_ex spec_ex params_ex 3
                    (zero spec_ex (bind_buffer (object_ex [0; 0; 1]))))) 0 = 1.
Proof.
  split; [|reflexivity].
  intros (_ & _ & _ & _ & _ & H). vm_compute in H. discriminate H.
Qed.

(** ** Loads inside an array, and the reference stack *)

Section Inside.

Variable stray : region → Z → Z.
Variable spec : ModelSpec.

Local Abbreviation B := (batch_size spec).
Local Abbreviation D := (model_dim spec).
Local Abbreviation T := (seq_length spec).

Lemma peek_inside rg a k : 0 ≤ k < len a → peek stray rg a k = elt a k.
Proof.
  intros Hk. unfold peek.
  by replace ((0 <=? k) && (k <? len a)) with true
    by (symmetry; apply andb_true_iff; lia).
Qed.

Lemma cell_in_matrix t i m :
  0 ≤ t < T → 0 ≤ i < B → 0 ≤ m < D →
  0 ≤ (t * B + i) * D + m < T * B * D.
Proof.
  intros Ht Hi Hm.
  assert (0 ≤ t * B + i) by nia.
  assert (t * B + i + 1 ≤ T * B) by nia.
  assert ((t * B + i + 1) * D ≤ T * B * D) by nia.
  nia.
Qed.

End Inside.

Section ReferenceFacts.

Variable spec : ModelSpec.
Variable params : ThinStackParameters.
Variables buf trs : list Z.

Local Abbreviation rrun := (ref_run spec params buf trs).

Lemma ref_run_S_inv i n rs' :
  rrun i (S n) = Some rs' →
  ∃ rs, rrun i n = Some rs
        ∧ ref_step spec params buf i (Z.of_nat n) (tr_at spec trs i (Z.of_nat n)) rs
          = Some rs'.
Proof.
  cbn [ref_run]. destruct (rrun i n) as [rs|]; [|done].
  intros H. by exists rs.
Qed.

Lemma ref_run_prefix i (n m : nat) :
  (n ≤ m)%nat → is_Some (rrun i m) → is_Some (rrun i n).
Proof.
  induction 1 as [|m Hnm IH]; [done|].
  intros [rs' Hrs']. apply ref_run_S_inv in Hrs' as (rs & Hrs & _).
  apply IH. by exists rs.
Qed.

(** A reference step changes the depth by [1 - 2 * tr] and leaves at
    least one entry. *)
Lemma ref_step_depth i t tr rs rs' :
  tr = 0 ∨ tr = 1 →
  ref_step spec params buf i t tr rs = Some rs' →
  Z.of_nat (length rs'.1) = Z.of_nat (length rs.1) + 1 - 2 * tr
  ∧ 1 ≤ Z.of_nat (length rs'.1).
Proof.
  destruct rs as [stk c]. unfold ref_step.
  intros [-> | ->].
  - change (0 =? 0) with true. cbv iota. intros [= <-]. cbn [fst length]. lia.
  - change (1 =? 0) with false. cbv iota.
    destruct stk as [|r [|l rest]]; try discriminate.
    intros [= <-]. cbn [fst length]. lia.
Qed.

End ReferenceFacts.

Section RefinementRun.

Variable stray : region → Z → Z.
Variable spec : ModelSpec.
Variable params : ThinStackParameters.
Hypothesis Hvalid : valid_spec spec.

Variable s : ThinStack.
Hypothesis Halloc : allocated spec s.
Hypothesis Hwf : well_formed spec params (X s) (transitions s).

Local Abbreviation B := (batch_size spec).
Local Abbreviation T := (seq_length spec).
Local Abbreviation step := (step stray spec params).
Local Abbreviation run := (steps stray spec params).
Local Abbreviation z := (zero spec (bind_buffer s)).
Local Abbreviation rrun := (ref_run spec params (X s) (transitions s)).

Lemma ref_run_defined i (n : nat) :
  0 ≤ i < B → Z.of_nat n ≤ T → is_Some (rrun i n).
Proof.
  intros Hi Hn. apply ref_run_prefix with (Z.to_nat T); [lia|].
  by apply Hwf.
Qed.

(** [cursors] is the depth of the reference stack, for every example. *)
Lemma cursors_ref_depth (n : nat) i rs :
  0 ≤ i < B → Z.of_nat n ≤ T → rrun i n = Some rs →
  elt (cursors (run n z)) i = Z.of_nat (length rs.1)
  ∧ Z.of_nat (length rs.1) ≤ Z.of_nat n
  ∧ (n ≠ 0%nat → 1 ≤ Z.of_nat (length rs.1)).
Proof.
  intros Hi. revert rs. induction n as [|n IH]; intros rs Hn Hrs.
  - injection Hrs as <-. cbn [fst length steps].
    split; [|split; [lia | done]].
    unfold zero; cbn [cursors bind_buffer].
    rewrite memset0_all by apply Halloc. rewrite elt_zeros by lia. done.
  - apply ref_run_S_inv in Hrs as (rs0 & Hrs0 & Hstep).
    destruct (IH rs0 ltac:(lia) Hrs0) as (Hc & Hle & _).
    apply ref_step_depth in Hstep as (Hd & H1);
      [|apply (proj1 Hwf); lia].
    rewrite (cursors_after_step stray spec params Hvalid s Halloc) by done.
    assert (tr_at spec (transitions s) i (Z.of_nat n) = 0
            ∨ tr_at spec (transitions s) i (Z.of_nat n) = 1) as Hb
      by (apply (proj1 Hwf); lia).
    lia.
Qed.

End RefinementRun.

(** ** The queue gather at a reduce *)

(** C1.  The left child of a reduce is to be found through the queue
    cell at [cursor - 1], where the scatter of an earlier step left the
    timestep of the second-from-top entry.  On shift, shift, reduce
    (B = 1, D = 2, T = 3) that holds up to the gather: when the reduce
    arrives the reference stack has [2,2] above [1,1], the cursor is 2,
    queue cell 1 holds 0 and stack row 0 holds [1,1].  But [step] calls
    the queue gather with rows of width [seq_length], so the cell it
    loads is at offset [(cursor - 1) * seq_length = 3], the length of
    the queue: [stack_2_ptrs] receives what lies past the queue and the
    left child gathered is not [1,1], while the right child is the top
    entry [2,2] as it should be. *)
Theorem queue_gather_misses_left_child :
  let before (stray : region → Z → Z) :=
    steps stray spec_ex params_ex 2
      (zero spec_ex (bind_buffer (object_ex [0; 0; 1]))) in
  let after (stray : region → Z → Z) :=
    step stray spec_ex params_ex (before stray) 2 in
  tr_at spec_ex (transitions (object_ex [0; 0; 1])) 0 2 = 1
  ∧ ref_run spec_ex params_ex (X (object_ex [0; 0; 1]))
      (transitions (object_ex [0; 0; 1])) 0 2
    = Some ([(1, [2; 2]); (0, [1; 1])], 2)
  ∧ (∀ stray,
       elt (cursors (before stray)) 0 = 2
       ∧ queue_read_idx spec_ex (cursors (before stray)) 0 = 1
       ∧ elt (queue (before stray)) 1 = 0
       ∧ row spec_ex (stack (before stray)) (0 * batch_size spec_ex + 0) = [1; 1]
       ∧ queue_read_idx spec_ex (cursors (before stray)) 0 * seq_length spec_ex + 0
         = len (queue (before stray))
       ∧ elt (stack_2_ptrs (after stray)) 0
         = stray Rqueue 3 * batch_size spec_ex + 0
       ∧ row spec_ex (stack_1_t (after stray)) 0 = [2; 2])
  ∧ row spec_ex (stack_2_t (after stray_ex)) 0 = [306; 307]
  ∧ row spec_ex (stack_2_t (after stray_ex)) 0 ≠ [1; 1].
Proof.
  cbv zeta. split; [reflexivity|]. split; [vm_compute; reflexivity|].
  split; [|split; [vm_compute; reflexivity | vm_compute; discriminate]].
  intros stray. repeat split; vm_compute; reflexivity.
Qed.

(** ** What the whole pass leaves in the stack *)

Section ForwardFacts.

Variable stray : region → Z → Z.
Variable spec : ModelSpec.
Variable params : ThinStackParameters.
Hypothesis Hvalid : valid_spec spec.

Variable s : ThinStack.
Hypothesis Halloc : allocated spec s.

Local Abbreviation B := (batch_size spec).
Local Abbreviation D := (model_dim spec).
Local Abbreviation T := (seq_length spec).
Local Abbreviation run := (steps stray spec params).
Local Abbreviation z := (zero spec (bind_buffer s)).

(** A row written by timestep [t] is still there after any longer
    prefix of the pass. *)
Lemma row_steps_keep (n m : nat) t i :
  (n ≤ m)%nat → 0 ≤ t < Z.of_nat n → t < T → 0 ≤ i < B →
  row spec (stack (run m z)) (t * B + i) = row spec (stack (run n z)) (t * B + i).
Proof.
  pose proof Hvalid as (HB & HD & HT).
  intros Hnm Ht HtT Hi. unfold row. apply tab_ext. intros j Hj.
  pose proof (cell_in_matrix spec t i j ltac:(lia) Hi Hj) as Hc.
  apply (stack_steps_keep stray spec params n m z t); try lia.
  - rewrite (alloc_stack _ _ (start_allocated spec s Halloc)). lia.
  - unfold in_row.
    assert (t * B * D ≤ (t * B + i) * D) by nia.
    assert ((t * B + i + 1) * D ≤ (t * B + B) * D) by nia.
    nia.
Qed.

End ForwardFacts.

(** ** The arrays along the pass *)

Lemma count_label_bounds spec lbl trs i n :
  0 ≤ count_label spec lbl trs i n ≤ Z.of_nat n.
Proof.
  induction n as [|n IH]; cbn [count_label]; [lia|].
  destruct (tr_at spec trs i (Z.of_nat n) =? lbl); lia.
Qed.

Section ReadBounds.

Variable stray : region → Z → Z.
Variable spec : ModelSpec.
Variable params : ThinStackParameters.
Hypothesis Hvalid : valid_spec spec.

Variable s : ThinStack.
Hypothesis Halloc : allocated spec s.

Local Abbreviation B := (batch_size spec).
Local Abbreviation D := (model_dim spec).
Local Abbreviation T := (seq_length spec).
Local Abbreviation run := (steps stray spec params).
Local Abbreviation z := (zero spec (bind_buffer s)).

Lemma run_allocated n : allocated spec (run n z).
Proof. apply steps_allocated; [done | by apply start_allocated]. Qed.

Lemma run_buffer n : buffer (run n z) = X s.
Proof. by destruct (steps_inputs stray spec params n z) as (_ & _ & -> & _). Qed.

End ReadBounds.

Lemma well_formed_ex :
  well_formed spec_ex params_ex (X (object_ex [0; 0; 1]))
    (transitions (object_ex [0; 0; 1])).
Proof.
  split; [exact binary_ex|].
  intros i Hi. simpl in Hi. assert (i = 0) as -> by lia.
  vm_compute. eexists. reflexivity.
Defined.

(** ** Shifts, the queue cells and the accumulators *)

(** X4.  A shift consumes the tokens in order, whatever the reduces
    do: for transitions that hold labels only, if the transition of
    example [i] at timestep [t] is a shift, then at the end of the pass
    row [t] of the stack holds, for that example, the buffer row whose
    number is the count of shifts before [t]. *)
Theorem shift_pushes_next_token (stray : region → Z → Z)
    (spec : ModelSpec) (params : ThinStackParameters) (s : ThinStack)
    (i : Z) (t : nat) :
  valid_spec spec → allocated spec s → binary spec (transitions s) →
  0 ≤ i < batch_size spec → Z.of_nat t < seq_length spec →
  tr_at spec (transitions s) i (Z.of_nat t) = 0 →
  row spec (stack (forward stray spec params s)) (Z.of_nat t * batch_size spec + i)
  = row spec (X s) (shifts spec (transitions s) i t * batch_size spec + i).
Proof.
  intros Hv Ha Hb Hi Ht Htr. pose proof Hv as (HB & HD & HT).
  unfold forward.
  rewrite (row_steps_keep stray spec params Hv s Ha (S t)) by (lia || done).
  change (steps stray spec params (S t) (zero spec (bind_buffer s)))
    with (step stray spec params
            (steps stray spec params t (zero spec (bind_buffer s))) (Z.of_nat t)).
  unfold row. apply tab_ext. intros j Hj.
  pose proof (run_allocated stray spec params Hv s Ha t) as Hal.
  rewrite (stack_step_written stray spec params Hv) by (done || lia || apply Hal).
  destruct (steps_inputs stray spec params t (zero spec (bind_buffer s)))
    as (_ & -> & _).
  change (transitions (zero spec (bind_buffer s))) with (transitions s).
  rewrite Htr. change (0 =? 1) with false. cbv iota.
  rewrite buffer_top_step by (done || apply Hal).
  rewrite (buffer_cur_shifts stray spec params Hv s Ha Hb) by (done || lia).
  rewrite run_buffer.
  apply peek_inside. rewrite (alloc_X _ _ Ha).
  pose proof (count_label_bounds spec 0 (transitions s) i t) as Hs.
  fold (shifts spec) in Hs.
  pose proof (cell_in_matrix spec (shifts spec (transitions s) i t) i j
                ltac:(lia) Hi Hj). lia.
Qed.

Lemma shift_pushes_next_token_witness :
  valid_spec spec_ex ∧ allocated spec_ex (object_ex [1; 0; 0])
  ∧ tr_at spec_ex (transitions (object_ex [1; 0; 0])) 0 2 = 0
  ∧ row spec_ex (stack (forward stray_ex spec_ex params_ex (object_ex [1; 0; 0])))
      (2 * batch_size spec_ex + 0)
    = row spec_ex (X (object_ex [1; 0; 0]))
        (shifts spec_ex (transitions (object_ex [1; 0; 0])) 0 2
         * batch_size spec_ex + 0).
Proof.
  assert (Hv : valid_spec spec_ex) by (repeat split).
  assert (Ha : allocated spec_ex (object_ex [1; 0; 0])) by (split; reflexivity).
  assert (Hb : binary spec_ex (transitions (object_ex [1; 0; 0]))).
  { intros i t Hi Ht. simpl in Hi, Ht. assert (i = 0) as -> by lia.
    assert (t = 0 ∨ t = 1 ∨ t = 2) as [-> | [-> | ->]] by lia;
      vm_compute; auto. }
  split; [exact Hv | split; [exact Ha | split; [reflexivity|]]].
  refine (shift_pushes_next_token stray_ex spec_ex params_ex
    (object_ex [1; 0; 0]) 0 2%nat Hv Ha Hb _ _ _).
  - simpl; lia.
  - simpl; lia.
  - reflexivity.
Defined.

(** X5.  In a pass over a well-formed input, the queue index that
    step [t] writes for example [i] lies between [i * seq_length + 1]
    and [i * seq_length + t + 1] (at the last timestep this can be the
    first cell of the next example's stretch), and two different
    examples never write the same cell in a step. *)
Theorem queue_writes_stay_apart (stray : region → Z → Z)
    (spec : ModelSpec) (params : ThinStackParameters) (s : ThinStack)
    (i i' : Z) (t : nat) :
  valid_spec spec → allocated spec s →
  well_formed spec params (X s) (transitions s) →
  0 ≤ i < batch_size spec → 0 ≤ i' < batch_size spec →
  Z.of_nat t < seq_length spec →
  let after := steps stray spec params (S t) (zero spec (bind_buffer s)) in
  i * seq_length spec + 1 ≤ queue_write_idx spec (cursors after) i
    ≤ i * seq_length spec + (Z.of_nat t + 1)
  ∧ (i ≠ i' →
     queue_write_idx spec (cursors after) i
     ≠ queue_write_idx spec (cursors after) i').
Proof.
  intros Hv Ha Hwf Hi Hi' Ht after.
  destruct (ref_run_defined spec params s Hwf i (S t) Hi ltac:(lia)) as [rs Hrs].
  destruct (ref_run_defined spec params s Hwf i' (S t) Hi' ltac:(lia)) as [rs' Hrs'].
  destruct (cursors_ref_depth stray spec params Hv s Ha Hwf (S t) i rs Hi
              ltac:(lia) Hrs) as (Hc & Hle & H1).
  destruct (cursors_ref_depth stray spec params Hv s Ha Hwf (S t) i' rs' Hi'
              ltac:(lia) Hrs') as (Hc' & Hle' & H1').
  specialize (H1 ltac:(done)). specialize (H1' ltac:(done)).
  fold after in Hc, Hc'.
  rewrite !queue_write_idx_eq by done. rewrite Hc, Hc'.
  split; [lia|]. intros Hne.
  assert (i < i' ∨ i' < i) as [|] by lia; nia.
Qed.

Lemma queue_writes_stay_apart_witness :
  valid_spec spec_ex ∧ allocated spec_ex (object_ex [0; 0; 1])
  ∧ well_formed spec_ex params_ex (X (object_ex [0; 0; 1]))
      (transitions (object_ex [0; 0; 1]))
  ∧ 0 * seq_length spec_ex + 1
    ≤ queue_write_idx spec_ex
        (cursors (steps stray_ex spec_ex params_ex 3
                    (zero spec_ex (bind_buffer (object_ex [0; 0; 1]))))) 0
    ≤ 0 * seq_length spec_ex + (Z.of_nat 2 + 1).
Proof.
  assert (Hv : valid_spec spec_ex) by (repeat split).
  assert (Ha : allocated spec_ex (object_ex [0; 0; 1])) by (split; reflexivity).
  split; [exact Hv | split; [exact Ha | split; [exact well_formed_ex|]]].
  refine (proj1 (queue_writes_stay_apart stray_ex spec_ex params_ex
    (object_ex [0; 0; 1]) 0 0 2%nat Hv Ha well_formed_ex _ _ _)).
  - simpl; lia.
  - simpl; lia.
  - simpl; lia.
Defined.

Section AccumulatorRelation.

Variable stray : region → Z → Z.
Variable spec : ModelSpec.
Variable params : ThinStackParameters.
Hypothesis Hvalid : valid_spec spec.
Variable s : ThinStack.
Hypothesis Halloc : allocated spec s.

Local Abbreviation run := (steps stray spec params).
Local Abbreviation z := (zero spec (bind_buffer s)).

Lemma cursors_all_shifts i (n : nat) :
  0 ≤ i < batch_size spec →
  (∀ t, 0 ≤ t < Z.of_nat n → tr_at spec (transitions s) i t = 0) →
  elt (cursors (run n z)) i = Z.of_nat n.
Proof.
  intros Hi. induction n as [|n IH]; intros Hall.
  - cbn [steps]. unfold zero; cbn [cursors bind_buffer].
    rewrite memset0_all by apply Halloc.
    destruct Hvalid as (HB & _). rewrite elt_zeros by lia. done.
  - rewrite (cursors_after_step stray spec params Hvalid s Halloc) by done.
    rewrite IH by (intros; apply Hall; lia).
    rewrite Hall by lia. lia.
Qed.

End AccumulatorRelation.

(** X6.  The two accumulators carry the same information, whatever the
    transitions hold: after [n] timesteps,
    [cursors = 2 * buffer_cur_t - n] for every example. *)
Theorem cursors_from_buffer_cur (stray : region → Z → Z)
    (spec : ModelSpec) (params : ThinStackParameters) (s : ThinStack)
    (i : Z) (n : nat) :
  valid_spec spec → allocated spec s → 0 ≤ i < batch_size spec →
  let st := steps stray spec params n (zero spec (bind_buffer s)) in
  elt (cursors st) i = 2 * elt (buffer_cur_t st) i - Z.of_nat n.
Proof.
  intros Hv Ha Hi. cbv zeta. induction n as [|n IH].
  - cbn [steps]. unfold zero; cbn [cursors buffer_cur_t bind_buffer].
    rewrite !memset0_all by apply Ha.
    destruct Hv as (HB & _). rewrite !elt_zeros by lia. done.
  - rewrite (cursors_after_step stray spec params Hv s Ha) by done.
    rewrite (buffer_cur_after_step stray spec params Hv s Ha) by done.
    lia.
Qed.

Lemma cursors_from_buffer_cur_witness :
  valid_spec spec_ex ∧ allocated spec_ex (object_ex [1; 0; 0])
  ∧ 0 ≤ 0 < batch_size spec_ex
  ∧ elt (cursors (steps stray_ex spec_ex params_ex 3
                    (zero spec_ex (bind_buffer (object_ex [1; 0; 0]))))) 0
    = 2 * elt (buffer_cur_t (steps stray_ex spec_ex params_ex 3
                               (zero spec_ex (bind_buffer (object_ex [1; 0; 0]))))) 0
      - Z.of_nat 3.
Proof.
  assert (Hv : valid_spec spec_ex) by (repeat split).
  assert (Ha : allocated spec_ex (object_ex [1; 0; 0])) by (split; reflexivity).
  assert (Hi : 0 ≤ 0 < batch_size spec_ex) by (simpl; lia).
  split; [exact Hv | split; [exact Ha | split; [exact Hi|]]].
  exact (cursors_from_buffer_cur stray_ex spec_ex params_ex
           (object_ex [1; 0; 0]) 0 3%nat Hv Ha Hi).
Defined.

(** X7.  When every transition of an example is a shift, its cursor
    ends at [seq_length], and the queue cell the last step addresses for
    it is the first cell of the next example's stretch; for the last
    example of the batch that index is the length of the queue, one past
    its last cell. *)
Theorem all_shifts_overrun_queue (stray : region → Z → Z)
    (spec : ModelSpec) (params : ThinStackParameters) (s : ThinStack) (i : Z) :
  valid_spec spec → allocated spec s → 0 ≤ i < batch_size spec →
  (∀ t, 0 ≤ t < seq_length spec → tr_at spec (transitions s) i t = 0) →
  let final := forward stray spec params s in
  elt (cursors final) i = seq_length spec
  ∧ queue_write_idx spec (cursors final) i = (i + 1) * seq_length spec
  ∧ (i = batch_size spec - 1 →
     queue_write_idx spec (cursors final) i = len (queue final)).
Proof.
  intros Hv Ha Hi Hall final. pose proof Hv as (HB & HD & HT).
  assert (Hc : elt (cursors final) i = seq_length spec).
  { unfold final, forward.
    rewrite (cursors_all_shifts stray spec params Hv s Ha) by (done || (intros; apply Hall; lia)).
    lia. }
  split; [exact Hc|]. rewrite queue_write_idx_eq by done. rewrite Hc.
  split; [lia|]. intros ->.
  unfold final, forward.
  rewrite (alloc_queue _ _ (run_allocated stray spec params Hv s Ha _)). lia.
Qed.

Lemma all_shifts_overrun_queue_witness :
  valid_spec spec_ex ∧ allocated spec_ex (object_ex [0; 0; 0])
  ∧ queue_write_idx spec_ex
      (cursors (forward stray_ex spec_ex params_ex (object_ex [0; 0; 0]))) 0
    = len (queue (forward stray_ex spec_ex params_ex (object_ex [0; 0; 0]))).
Proof.
  assert (Hv : valid_spec spec_ex) by (repeat split).
  assert (Ha : allocated spec_ex (object_ex [0; 0; 0])) by (split; reflexivity).
  split; [exact Hv | split; [exact Ha|]].
  refine (proj2 (proj2 (all_shifts_overrun_queue stray_ex spec_ex params_ex
    (object_ex [0; 0; 0]) 0 Hv Ha _ _)) eq_refl).
  - simpl; lia.
  - intros t Ht. simpl in Ht.
    assert (t = 0 ∨ t = 1 ∨ t = 2) as [-> | [-> | ->]] by lia; reflexivity.
Defined.

(** X8.  [recurrence] overwrites its output: what [merge_output] held
    before the call (the first product is taken with beta = 0) and the
    buffer top it is handed do not show in the result. *)
Theorem recurrence_ignores_stale_output (spec : ModelSpec)
    (params : ThinStackParameters) (mo1 mo2 s1 s2 bt1 bt2 : list Z) :
  valid_spec spec →
  len mo1 = batch_size spec * model_dim spec →
  len mo2 = batch_size spec * model_dim spec →
  recurrence spec params mo1 s1 s2 bt1 = recurrence spec params mo2 s1 s2 bt2.
Proof.
  intros Hv Hl1 Hl2. pose proof Hv as (HB & HD & HT).
  assert (Hlen : ∀ mo bt, len (recurrence spec params mo s1 s2 bt) = len mo).
  { intros. unfold recurrence. by rewrite !len_cublasSgemm. }
  apply elt_ext.
  - apply Nat2Z.inj. fold (len (recurrence spec params mo1 s1 s2 bt1)).
    fold (len (recurrence spec params mo2 s1 s2 bt2)).
    by rewrite !Hlen, Hl1, Hl2.
  - intros p Hp. rewrite Hlen, Hl1 in Hp.
    pose proof (Z.div_mod p (model_dim spec) ltac:(lia)) as H1.
    pose proof (Z.mod_pos_bound p (model_dim spec) ltac:(lia)) as H2.
    assert (0 ≤ p `div` model_dim spec) by (apply Z.div_pos; lia).
    assert (p `div` model_dim spec < batch_size spec)
      by (apply Z.div_lt_upper_bound; nia).
    replace p with ((p `div` model_dim spec) * model_dim spec
                    + p `mod` model_dim spec) by lia.
    by rewrite !(recurrence_elt spec params Hv) by (done || lia).
Qed.

Lemma recurrence_ignores_stale_output_witness :
  valid_spec spec_ex
  ∧ recurrence spec_ex params_ex [7; 7] [2; 2] [1; 1] [3; 3]
    = recurrence spec_ex params_ex [0; 0] [2; 2] [1; 1] [5; 5].
Proof.
  assert (Hv : valid_spec spec_ex) by (repeat split).
  split; [exact Hv|].
  exact (recurrence_ignores_stale_output spec_ex params_ex
           [7; 7] [0; 0] [2; 2] [1; 1] [3; 3] [5; 5] Hv eq_refl eq_refl).
Defined.



(** ** What the destructor gives back *)

Section LifetimeFacts.

Import Lifetime.

Lemma lookup_cudaFree q p h :
  live (cudaFree p h) !! q = if decide (q = p) then None else live h !! q.
Proof.
  unfold cudaFree. destruct (live h !! p) eqn:E; cbn [live].
  - rewrite lookup_delete. by destruct (decide (p = q)), (decide (q = p)).
  - destruct (decide (q = p)) as [-> |]; done.
Qed.

Lemma lookup_free_all l h q :
  live (free_all l h) !! q = if decide (q ∈ l) then None else live h !! q.
Proof.
  revert h. induction l as [|p l IH]; intros h.
  - cbn. by rewrite decide_False by apply not_elem_of_nil.
  - cbn [free_all foldl]. fold (free_all l (cudaFree p h)).
    rewrite IH, lookup_cudaFree.
    destruct (decide (q ∈ l)) as [Hl | Hl].
    + by rewrite decide_True by (by right).
    + destruct (decide (q = p)) as [-> | Hne].
      * by rewrite decide_True by (by left).
      * rewrite decide_False; [done|]. rewrite elem_of_cons. tauto.
Qed.

Lemma invalid_cudaFree_live p h :
  is_Some (live h !! p) → invalid_frees (cudaFree p h) = invalid_frees h.
Proof. intros [b Hb]. unfold cudaFree. by rewrite Hb. Qed.

Lemma invalid_cudaFree_dead p h :
  live h !! p = None → invalid_frees (cudaFree p h) = invalid_frees h ++ [p].
Proof. intros Hb. unfold cudaFree. by rewrite Hb. Qed.

(** Freeing distinct live blocks never fails. *)
Lemma invalid_free_all_live l h :
  NoDup l → (∀ p, p ∈ l → is_Some (live h !! p)) →
  invalid_frees (free_all l h) = invalid_frees h.
Proof.
  revert h. induction l as [|p l IH]; intros h Hnd Hlive; [done|].
  apply NoDup_cons in Hnd as (Hp & Hnd).
  cbn [free_all foldl]. fold (free_all l (cudaFree p h)).
  rewrite IH; [apply invalid_cudaFree_live, Hlive; by left | done |].
  intros q Hq. rewrite lookup_cudaFree.
  rewrite decide_False by (intros ->; done). apply Hlive. by right.
Qed.

Lemma free_all_app l1 l2 h : free_all (l1 ++ l2) h = free_all l2 (free_all l1 h).
Proof. unfold free_all. apply foldl_app. Qed.

(** The destructor is the frees of fifteen members, in this order. *)
Lemma destroy_order ps h :
  destroy ps h
  = free_all [batch_ones ps; batch_range ps; X ps; transitions ps; stack ps;
              queue ps; cursors ps; buffer ps; buffer_top_idxs_t ps;
              buffer_top_t ps; stack_1_ptrs ps; stack_2_ptrs ps;
              push_output ps; merge_output ps; buffer_cur_t ps] h.
Proof. unfold destroy, free_helpers, free_all. cbn [foldl]. reflexivity. Qed.

(** The constructor takes the next seventeen addresses. *)
Lemma construct_pointers spec m n l :
  (construct spec (Build_heap m n l)).1
  = {| X := n; transitions := 1 + n; stack := 2 + n; queue := 3 + n;
       cursors := 4 + n; buffer := 5 + n; buffer_top_idxs_t := 6 + n;
       buffer_top_t := 7 + n; stack_1_ptrs := 8 + n; stack_1_t := 9 + n;
       stack_2_ptrs := 10 + n; stack_2_t := 11 + n; push_output := 12 + n;
       merge_output := 13 + n; buffer_cur_t := 14 + n;
       batch_range := 15 + n; batch_ones := 16 + n |}.
Proof. cbv [construct cudaMalloc live fresh invalid_frees fst snd]. reflexivity. Qed.

Lemma construct_invalid spec m n l :
  invalid_frees (construct spec (Build_heap m n l)).2 = l.
Proof. cbv [construct cudaMalloc live fresh invalid_frees fst snd]. reflexivity. Qed.

Lemma construct_live_old spec m n l q :
  ¬ (n ≤ q < 17 + n)%nat →
  live (construct spec (Build_heap m n l)).2 !! q = m !! q.
Proof.
  intros Hq. cbv [construct cudaMalloc live fresh invalid_frees fst snd].
  by rewrite !lookup_insert_ne by lia.
Qed.

Lemma construct_live_new spec m n l q :
  (n ≤ q < 17 + n)%nat →
  is_Some (live (construct spec (Build_heap m n l)).2 !! q).
Proof.
  intros Hq. cbv [construct cudaMalloc live fresh invalid_frees fst snd].
  assert (∃ k, (k < 17)%nat ∧ q = (k + n)%nat) as (k & Hk & ->)
    by (exists (q - n)%nat; lia).
  do 17 (destruct k as [|k];
         [rewrite ?lookup_insert_ne by lia; rewrite lookup_insert_eq;
          by eexists|]).
  lia.
Qed.

Lemma construct_live_sizes spec m n l :
  let h1 := (construct spec (Build_heap m n l)).2 in
  live h1 !! (5 + n)%nat
  = Some (batch_size spec * seq_length spec * model_dim spec * sizeof_float)
  ∧ live h1 !! (9 + n)%nat
    = Some (model_dim spec * batch_size spec * sizeof_float)
  ∧ live h1 !! (11 + n)%nat
    = Some (model_dim spec * batch_size spec * sizeof_float).
Proof.
  cbv zeta. cbv [construct cudaMalloc live fresh invalid_frees fst snd].
  repeat split; rewrite !lookup_insert_ne by lia; by rewrite lookup_insert_eq.
Qed.

Lemma heap_ok_fresh m n l q :
  heap_ok (Build_heap m n l) → (n ≤ q)%nat → m !! q = None.
Proof.
  intros Hok Hq. destruct (m !! q) eqn:E; [|done].
  specialize (Hok q ltac:(by eexists)). simpl in Hok. lia.
Qed.

End LifetimeFacts.

Ltac members H := rewrite ?elem_of_cons, ?elem_of_nil in H.

Ltac distinct_blocks :=
  repeat (apply NoDup_cons_2;
          [let H := fresh in intros H; members H; lia |]);
  apply NoDup_nil_2.

(** X9.  An object that is constructed and destroyed does not give
    back all it took: the destructor never frees [stack_1_t] and
    [stack_2_t], so against any heap that respects the allocator's
    invariant exactly those two blocks, of
    [model_dim * batch_size * sizeof(float)] bytes each, stay live, and
    no free is invalid. *)
Theorem destructor_leaks_two_blocks (spec : ModelSpec) (h : Lifetime.heap) :
  Lifetime.heap_ok h →
  let ps := (Lifetime.construct spec h).1 in
  let h' := Lifetime.destroy ps (Lifetime.construct spec h).2 in
  Lifetime.live h'
  = <[Lifetime.stack_2_t ps :=
        model_dim spec * batch_size spec * Lifetime.sizeof_float]>
      (<[Lifetime.stack_1_t ps :=
           model_dim spec * batch_size spec * Lifetime.sizeof_float]>
         (Lifetime.live h))
  ∧ Lifetime.invalid_frees h' = Lifetime.invalid_frees h
  ∧ Lifetime.live h !! Lifetime.stack_1_t ps = None
  ∧ Lifetime.live h !! Lifetime.stack_2_t ps = None
  ∧ Lifetime.stack_1_t ps ≠ Lifetime.stack_2_t ps.
Proof.
  intros Hok. destruct h as [m n l]. cbv zeta.
  rewrite construct_pointers, destroy_order.
  cbn [Lifetime.X Lifetime.transitions Lifetime.stack Lifetime.queue
       Lifetime.cursors Lifetime.buffer Lifetime.buffer_top_idxs_t
       Lifetime.buffer_top_t Lifetime.stack_1_ptrs Lifetime.stack_1_t
       Lifetime.stack_2_ptrs Lifetime.stack_2_t Lifetime.push_output
       Lifetime.merge_output Lifetime.buffer_cur_t Lifetime.batch_range
       Lifetime.batch_ones Lifetime.live Lifetime.invalid_frees].
  destruct (construct_live_sizes spec m n l) as (_ & Hs1 & Hs2).
  split; [|split; [|split; [|split]]].
  - apply map_eq. intros q. rewrite lookup_free_all.
    destruct (decide (q ∈ _)) as [Hin | Hout].
    + members Hin. rewrite !lookup_insert_ne by lia.
      symmetry. apply (heap_ok_fresh m n l q Hok). lia.
    + members Hout.
      destruct (decide (q = 11 + n)%nat) as [-> | H11];
        [by rewrite lookup_insert_eq, Hs2|].
      rewrite lookup_insert_ne by lia.
      destruct (decide (q = 9 + n)%nat) as [-> | H9];
        [by rewrite lookup_insert_eq, Hs1|].
      rewrite lookup_insert_ne by lia.
      apply construct_live_old. lia.
  - rewrite invalid_free_all_live; [apply construct_invalid | distinct_blocks |].
    intros p Hp. members Hp. apply construct_live_new. lia.
  - apply (heap_ok_fresh m n l _ Hok). lia.
  - apply (heap_ok_fresh m n l _ Hok). lia.
  - lia.
Qed.

Lemma heap_ok_empty : Lifetime.heap_ok Lifetime.empty_heap.
Proof. intros p [b Hb]. simpl in Hb. by rewrite lookup_empty in Hb. Defined.

Lemma destructor_leaks_two_blocks_witness :
  Lifetime.heap_ok Lifetime.empty_heap
  ∧ Lifetime.invalid_frees
      (Lifetime.destroy (Lifetime.construct spec_ex Lifetime.empty_heap).1
         (Lifetime.construct spec_ex Lifetime.empty_heap).2)
    = Lifetime.invalid_frees Lifetime.empty_heap.
Proof.
  split; [exact heap_ok_empty|].
  exact (proj1 (proj2
    (destructor_leaks_two_blocks spec_ex Lifetime.empty_heap heap_ok_empty))).
Defined.

(** X10.  Once [forward] has run, [buffer] is an alias of [X]: the
    destructor then hands the block of [X] to [cudaFree] twice, the
    second time when it is no longer live, and the block that the
    constructor allocated for [buffer] stays live together with those of
    [stack_1_t] and [stack_2_t]. *)
Theorem destructor_after_forward_frees_X_twice (spec : ModelSpec)
    (h : Lifetime.heap) :
  Lifetime.heap_ok h →
  let ps := (Lifetime.construct spec h).1 in
  let h' := Lifetime.destroy (Lifetime.forward ps) (Lifetime.construct spec h).2 in
  Lifetime.invalid_frees h' = Lifetime.invalid_frees h ++ [Lifetime.X ps]
  ∧ Lifetime.live h'
    = <[Lifetime.stack_2_t ps :=
          model_dim spec * batch_size spec * Lifetime.sizeof_float]>
        (<[Lifetime.stack_1_t ps :=
             model_dim spec * batch_size spec * Lifetime.sizeof_float]>
           (<[Lifetime.buffer ps :=
                batch_size spec * seq_length spec * model_dim spec
                * Lifetime.sizeof_float]>
              (Lifetime.live h)))
  ∧ Lifetime.live h !! Lifetime.buffer ps = None.
Proof.
  intros Hok. destruct h as [m n l]. cbv zeta.
  rewrite construct_pointers, destroy_order.
  cbn [Lifetime.forward Lifetime.X Lifetime.transitions Lifetime.stack
       Lifetime.queue Lifetime.cursors Lifetime.buffer
       Lifetime.buffer_top_idxs_t Lifetime.buffer_top_t
       Lifetime.stack_1_ptrs Lifetime.stack_1_t Lifetime.stack_2_ptrs
       Lifetime.stack_2_t Lifetime.push_output Lifetime.merge_output
       Lifetime.buffer_cur_t Lifetime.batch_range Lifetime.batch_ones
       Lifetime.live Lifetime.invalid_frees].
  destruct (construct_live_sizes spec m n l) as (Hs0 & Hs1 & Hs2).
  split; [|split].
  - change (Lifetime.free_all ?L ?h1)
      with (Lifetime.free_all
              ([16 + n; 15 + n; n; 1 + n; 2 + n; 3 + n; 4 + n]
               ++ [n]
               ++ [6 + n; 7 + n; 8 + n; 10 + n; 12 + n; 13 + n; 14 + n])%nat h1).
    rewrite !free_all_app.
    rewrite invalid_free_all_live; [|distinct_blocks|].
    + change (Lifetime.free_all [n] ?h1) with (Lifetime.cudaFree n h1).
      rewrite invalid_cudaFree_dead.
      * rewrite invalid_free_all_live;
          [by rewrite construct_invalid | distinct_blocks |].
        intros p Hp. members Hp. apply construct_live_new. lia.
      * rewrite lookup_free_all. apply decide_True.
        rewrite ?elem_of_cons. auto.
    + intros p Hp. members Hp.
      change (Lifetime.free_all [n] ?h1) with (Lifetime.cudaFree n h1).
      rewrite lookup_cudaFree, decide_False by lia.
      rewrite lookup_free_all, decide_False.
      * apply construct_live_new. lia.
      * intros Hq. members Hq. lia.
  - apply map_eq. intros q. rewrite lookup_free_all.
    destruct (decide (q ∈ _)) as [Hin | Hout].
    + members Hin. rewrite !lookup_insert_ne by lia.
      symmetry. apply (heap_ok_fresh m n l q Hok). lia.
    + members Hout.
      destruct (decide (q = 11 + n)%nat) as [-> | H11];
        [by rewrite lookup_insert_eq, Hs2|].
      rewrite lookup_insert_ne by lia.
      destruct (decide (q = 9 + n)%nat) as [-> | H9];
        [by rewrite lookup_insert_eq, Hs1|].
      rewrite lookup_insert_ne by lia.
      destruct (decide (q = 5 + n)%nat) as [-> | H5];
        [by rewrite lookup_insert_eq, Hs0|].
      rewrite lookup_insert_ne by lia.
      apply construct_live_old. lia.
  - apply (heap_ok_fresh m n l _ Hok). lia.
Qed.

Lemma destructor_after_forward_frees_X_twice_witness :
  Lifetime.heap_ok Lifetime.empty_heap
  ∧ Lifetime.invalid_frees
      (Lifetime.destroy
         (Lifetime.forward (Lifetime.construct spec_ex Lifetime.empty_heap).1)
         (Lifetime.construct spec_ex Lifetime.empty_heap).2)
    = Lifetime.invalid_frees Lifetime.empty_heap
      ++ [Lifetime.X (Lifetime.construct spec_ex Lifetime.empty_heap).1].
Proof.
  split; [exact heap_ok_empty|].
  exact (proj1
    (destructor_after_forward_frees_X_twice spec_ex Lifetime.empty_heap
       heap_ok_empty)).
Defined.
